(** * asio::cancellation_signal / asio::cancellation_slot

    A shallow embedding of [asio/cancellation_signal.hpp]: the type-erased
    handler records ([detail::cancellation_handler]), the recycling of their
    memory blocks, the owning [cancellation_signal] and the borrowing
    [cancellation_slot].

    The C++ code mutates the free store and the signal objects, may throw,
    may abort on a failed [assert] and has undefined behaviour on bad
    pointers.  All of this is made explicit: a computation is a function
    from a [state] to a new [state] and an [outcome].

    What is not modelled: user code reaching back into the signal it is
    installed in (a handler acts on its context and may throw, nothing
    more), effects of the destructors of handlers and contexts (that a
    destructor ran is recorded, what user code it runs is not), and
    concurrent use; the header leaves all three to the caller. *)

From stdpp Require Import base numbers option list gmap fin_maps.

Local Open Scope N_scope.

(** ** What the caller supplies

    The header is a set of templates.  Everything the templates are
    instantiated with is gathered in one interface: the handler and context
    values, the arguments a context is constructed from, the exceptions user
    code may throw, and the instantiations [cancellation_handler<Context,
    Handler>] themselves (type [realization]) with their [sizeof]. *)

Class UserTypes := {
  Handler : Type;
  ContextT : Type;
  Args : Type;
  UserExn : Type;
  (** an instantiation of [detail::cancellation_handler] *)
  realization : Type;
  (** [sizeof(cancellation_handler)] for that instantiation *)
  sizeof : realization -> N;
  (** [handler_(ASIO_MOVE_CAST(H)(handler))]: [Some e] when the
      constructor of the handler throws [e] *)
  handler_ctor : Handler -> option UserExn;
  (** [context_(ASIO_MOVE_CAST(Args)(args)...)]: [inl e] when the
      constructor of the context throws [e] *)
  context_ctor : Args -> UserExn + ContextT;
  (** [handler_(context_)]: the context after the call, and the exception
      the handler threw, if any *)
  handler_call : Handler -> ContextT -> ContextT * option UserExn;
  (** [handler_()] of a context-free handler *)
  handler_call_void : Handler -> option UserExn
}.

(** ** Outcomes of a C++ call *)

Inductive exception `{UserTypes} : Type :=
| bad_alloc
| user_exception (e : UserExn).

Inductive outcome `{UserTypes} (A : Type) : Type :=
| Return (a : A)          (* normal completion *)
| Throw (e : exception)   (* an exception propagates to the caller *)
| AssertFail              (* [assert] failed: the program is aborted *)
| Undefined.              (* undefined behaviour *)

Arguments Return {_ _} a.
Arguments Throw {_ _} e.
Arguments AssertFail {_ _}.
Arguments Undefined {_ _}.

(** ** Pointers, records, blocks *)

(** A pointer is a number, [0] is the null pointer. *)
Definition null : N := 0.

(** The two realizations behind [cancellation_handler_base]: the general
    template with its [context_] member and the [<void, Handler>]
    specialisation.  [T] is the dynamic type of the object (what the vtable
    pointer stands for); the other arguments are the data members. *)
Inductive cancellation_handler_base `{UserTypes} : Type :=
| cancellation_handler (T : realization)
    (handler_ : Handler) (context_ : ContextT) (size_ : N)
| cancellation_handler_void (T : realization)
    (handler_ : Handler) (size_ : N).

Arguments cancellation_handler {_} T handler_ context_ size_.
Arguments cancellation_handler_void {_} T handler_ size_.

Definition dynamic_type `{UserTypes} (r : cancellation_handler_base) : realization :=
  match r with
  | cancellation_handler T _ _ _ => T
  | cancellation_handler_void T _ _ => T
  end.

Definition size_ `{UserTypes} (r : cancellation_handler_base) : N :=
  match r with
  | cancellation_handler _ _ _ sz => sz
  | cancellation_handler_void _ _ sz => sz
  end.

Definition stored_handler `{UserTypes} (r : cancellation_handler_base) : Handler :=
  match r with
  | cancellation_handler _ h _ _ => h
  | cancellation_handler_void _ h _ => h
  end.

(** A live block of the free store: the size it was requested with and the
    object constructed in it, if any. *)
Record block `{UserTypes} : Type := Block {
  capacity : N;
  object : option cancellation_handler_base
}.

Arguments Block {_} capacity object.

(** A call of the global allocation functions. *)
Inductive alloc_event : Type :=
| ev_new (sz : N) (r : option N)   (* [::operator new(sz)]; [None]: it threw *)
| ev_delete (p : N).               (* [::operator delete(p)] *)

(** One invocation of an installed handler: the handler and, for a handler
    with a context, the object it was passed by reference. *)
Definition call_event `{UserTypes} : Type := (Handler * option N)%type.

(** ** The state

    [heap]: the live blocks, by address.  [signals]: the live
    [cancellation_signal] objects, each identified by the location of its
    [handler_] member (a [positive], so that [&handler_] is never null),
    mapped to the value of that member.  [alloc_log] and [calls] record
    what an allocation-counting harness and the handlers observe.
    [destroyed] records the destructor runs: one entry for each run of
    [~cancellation_handler()], with the address of the object and the
    object whose members were destroyed. *)
Record state `{UserTypes} : Type := State {
  heap : gmap N block;
  signals : gmap positive N;
  alloc_log : list alloc_event;
  calls : list call_event;
  destroyed : list (N * cancellation_handler_base)
}.

Arguments State {_} heap signals alloc_log calls destroyed.

Definition set_heap `{UserTypes} (f : gmap N block -> gmap N block) (st : state) : state :=
  State (f (heap st)) (signals st) (alloc_log st) (calls st) (destroyed st).

Definition set_signals `{UserTypes} (f : gmap positive N -> gmap positive N) (st : state) : state :=
  State (heap st) (f (signals st)) (alloc_log st) (calls st) (destroyed st).

Definition log_alloc `{UserTypes} (e : alloc_event) (st : state) : state :=
  State (heap st) (signals st) (alloc_log st ++ [e]) (calls st) (destroyed st).

Definition log_call `{UserTypes} (e : call_event) (st : state) : state :=
  State (heap st) (signals st) (alloc_log st) (calls st ++ [e]) (destroyed st).

Definition log_destroy `{UserTypes} (e : N * cancellation_handler_base) (st : state) : state :=
  State (heap st) (signals st) (alloc_log st) (calls st) (destroyed st ++ [e]).

(** ** The build and the platform

    [NDEBUG] decides whether [assert] is compiled in; [allocate] is the
    policy of [::operator new]: the address of the new block, or [None]
    when memory is exhausted. *)
Class Platform `{UserTypes} := {
  NDEBUG : bool;
  allocate : gmap N block -> N -> option N
}.

(** ** Computations *)

Definition M `{UserTypes} (A : Type) : Type := state -> state * outcome A.

Definition ret `{UserTypes} {A} (a : A) : M A := fun st => (st, Return a).

Definition bind `{UserTypes} {A B} (m : M A) (k : A -> M B) : M B :=
  fun st =>
    match m st with
    | (st', Return a) => k a st'
    | (st', Throw e) => (st', Throw e)
    | (st', AssertFail) => (st', AssertFail)
    | (st', Undefined) => (st', Undefined)
    end.

Definition throw `{UserTypes} {A} (e : exception) : M A := fun st => (st, Throw e).

(** [try { m } catch (...) { h }]: only exceptions are caught. *)
Definition try_catch `{UserTypes} {A} (m : M A) (h : exception -> M A) : M A :=
  fun st =>
    match m st with
    | (st', Throw e) => h e st'
    | r => r
    end.

Declare Scope cxx_scope.
Delimit Scope cxx_scope with cxx.
Notation "x <- m ;; k" := (bind m (fun x => k))
  (at level 100, m at next level, right associativity) : cxx_scope.
Notation "m ;;; k" := (bind m (fun _ => k))
  (at level 100, right associativity) : cxx_scope.
Local Open Scope cxx_scope.

Section Model.
Context `{UT : UserTypes} `{PF : !Platform}.

(** [assert(b)] from <cassert> *)
Definition assert_ (b : bool) : M unit :=
  fun st =>
    if NDEBUG then (st, Return tt)
    else if b then (st, Return tt) else (st, AssertFail).

(** *** The free store *)

(** [::operator new(sz)] *)
Definition operator_new (sz : N) : M N :=
  fun st =>
    match allocate (heap st) sz with
    | Some p =>
        (log_alloc (ev_new sz (Some p))
           (set_heap (insert p (Block sz None)) st), Return p)
    | None => (log_alloc (ev_new sz None) st, Throw bad_alloc)
    end.

(** [::operator delete(p)]: nothing happens for the null pointer; a
    pointer that is not a live block is undefined behaviour. *)
Definition operator_delete (p : N) : M unit :=
  fun st =>
    if p =? null then (log_alloc (ev_delete p) st, Return tt)
    else
      match heap st !! p with
      | Some _ => (log_alloc (ev_delete p) (set_heap (delete p) st), Return tt)
      | None => (st, Undefined)
      end.

(** *** detail::cancellation_handler *)

(** The private constructor of the general template: [handler_], then
    [context_], then [size_]. *)
Definition construct (T : realization) (size : N) (handler : Handler) (args : Args)
  : outcome cancellation_handler_base :=
  match handler_ctor handler with
  | Some e => Throw (user_exception e)
  | None =>
      match context_ctor args with
      | inl e => Throw (user_exception e)
      | inr c => Return (cancellation_handler T handler c size)
      end
  end.

(** The private constructor of the [<void, Handler>] specialisation. *)
Definition construct_void (T : realization) (size : N) (handler : Handler)
  : outcome cancellation_handler_base :=
  match handler_ctor handler with
  | Some e => Throw (user_exception e)
  | None => Return (cancellation_handler_void T handler size)
  end.

(** [new (p) cancellation_handler(...)]: the object is constructed in the
    block at [p].  Constructing at a pointer that is not a live block, or
    into a block that is too small, is undefined behaviour.  When the
    constructor throws, the block is left as raw memory. *)
Definition placement_new (p : N) (T : realization)
    (r : outcome cancellation_handler_base) : M N :=
  fun st =>
    match heap st !! p with
    | Some b =>
        if sizeof T <=? capacity b then
          match r with
          | Return obj =>
              (set_heap (insert p (Block (capacity b) (Some obj))) st, Return p)
          | Throw e => (st, Throw e)
          | AssertFail => (st, AssertFail)
          | Undefined => (st, Undefined)
          end
        else (st, Undefined)
    | None => (st, Undefined)
    end.

(** [cancellation_handler<Context, Handler>::create] *)
Definition create (T : realization) (mem : N * N) (handler : Handler) (args : Args) : M N :=
  mem <- (if mem.2 <? sizeof T then
            operator_delete mem.1 ;;;
            p <- operator_new (sizeof T) ;;
            ret (p, sizeof T)
          else ret mem) ;;
  try_catch
    (placement_new mem.1 T (construct T mem.2 handler args))
    (fun e => operator_delete mem.1 ;;; throw e).

(** [cancellation_handler<void, Handler>::create] *)
Definition create_void (T : realization) (mem : N * N) (handler : Handler) : M N :=
  mem <- (if mem.2 <? sizeof T then
            operator_delete mem.1 ;;;
            p <- operator_new (sizeof T) ;;
            ret (p, sizeof T)
          else ret mem) ;;
  try_catch
    (placement_new mem.1 T (construct_void T mem.2 handler))
    (fun e => operator_delete mem.1 ;;; throw e).

(** The virtual [call()] of the object at [p]. *)
Definition call (p : N) : M unit :=
  fun st =>
    match heap st !! p with
    | Some (Block cap (Some (cancellation_handler T h c sz))) =>
        let (c', r) := handler_call h c in
        (log_call (h, Some p)
           (set_heap (insert p (Block cap (Some (cancellation_handler T h c' sz)))) st),
         match r with
         | None => Return tt
         | Some e => Throw (user_exception e)
         end)
    | Some (Block cap (Some (cancellation_handler_void T h sz))) =>
        (log_call (h, None) st,
         match handler_call_void h with
         | None => Return tt
         | Some e => Throw (user_exception e)
         end)
    | _ => (st, Undefined)
    end.

(** The virtual [destroy()] of the object at [p]: the destructor runs,
    which ends the lifetime of the object and is recorded in [destroyed],
    and the block is handed back with the size the object recorded. *)
Definition destroy (p : N) : M (N * N) :=
  fun st =>
    match heap st !! p with
    | Some (Block cap (Some r)) =>
        (log_destroy (p, r) (set_heap (insert p (Block cap None)) st),
         Return (p, size_ r))
    | _ => (st, Undefined)
    end.

(** [context()]: a reference to the [context_] member of the object at
    [p] is represented by [p] itself. *)
Definition context (p : N) : N := p.

(** *** cancellation_signal *)

(** Reading and writing the [handler_] member of the signal at [sg]. *)
Definition load_signal (sg : positive) : M N :=
  fun st =>
    match signals st !! sg with
    | Some h => (st, Return h)
    | None => (st, Undefined)
    end.

Definition store_signal (sg : positive) (h : N) : M unit :=
  fun st =>
    match signals st !! sg with
    | Some _ => (set_signals (insert sg h) st, Return tt)
    | None => (st, Undefined)
    end.

(** [cancellation_signal()] for a new object at [sg] *)
Definition cancellation_signal_ctor (sg : positive) : M unit :=
  fun st =>
    match signals st !! sg with
    | Some _ => (st, Undefined)
    | None => (set_signals (insert sg null) st, Return tt)
    end.

(** [~cancellation_signal()] *)
Definition cancellation_signal_dtor (sg : positive) : M unit :=
  h <- load_signal sg ;;
  (if h =? null then ret tt
   else mem <- destroy h ;; operator_delete mem.1) ;;;
  (fun st => (set_signals (delete sg) st, Return tt)).

(** [emit()] *)
Definition emit (sg : positive) : M unit :=
  h <- load_signal sg ;;
  if h =? null then ret tt else call h.

(** *** cancellation_slot *)

(** The slot holds [handler_], a pointer to the [handler_] member of a
    signal: [0] when disconnected, [Npos sg] for the signal at [sg]. *)
Record cancellation_slot : Type := Slot { handler_ : N }.

(** [cancellation_slot()] *)
Definition cancellation_slot_default : cancellation_slot := Slot null.

(** [cancellation_signal::slot()] *)
Definition slot (sg : positive) : cancellation_slot := Slot (Npos sg).

(** [*handler_] as an rvalue and [*handler_ = h] *)
Definition deref (pp : N) : M N :=
  match pp with
  | N0 => fun st => (st, Undefined)
  | Npos sg => load_signal sg
  end.

Definition assign (pp : N) (h : N) : M unit :=
  match pp with
  | N0 => fun st => (st, Undefined)
  | Npos sg => store_signal sg h
  end.

(** [emplace<Context, Handler>(handler, args...)].  [mem] starts as the
    value-initialised pair: the null pointer and size 0. *)
Definition emplace (s : cancellation_slot) (T : realization)
    (handler : Handler) (args : Args) : M N :=
  assert_ (negb (handler_ s =? null)) ;;;
  cur <- deref (handler_ s) ;;
  mem <- (if cur =? null then ret (null, 0)
          else
            mem <- destroy cur ;;
            assign (handler_ s) null ;;;
            ret mem) ;;
  handler_obj <- create T mem handler args ;;
  assign (handler_ s) handler_obj ;;;
  ret (context handler_obj).

(** [emplace<Handler>(handler)] *)
Definition emplace_void (s : cancellation_slot) (T : realization)
    (handler : Handler) : M unit :=
  assert_ (negb (handler_ s =? null)) ;;;
  cur <- deref (handler_ s) ;;
  mem <- (if cur =? null then ret (null, 0)
          else
            mem <- destroy cur ;;
            assign (handler_ s) null ;;;
            ret mem) ;;
  handler_obj <- create_void T mem handler ;;
  assign (handler_ s) handler_obj.

(** [clear()] *)
Definition clear (s : cancellation_slot) : M unit :=
  if handler_ s =? null then ret tt
  else
    cur <- deref (handler_ s) ;;
    if cur =? null then ret tt
    else
      mem <- destroy cur ;;
      operator_delete mem.1 ;;;
      assign (handler_ s) null.

(** [is_connected()] *)
Definition is_connected (s : cancellation_slot) : bool :=
  negb (handler_ s =? null).

(** [has_handler()] *)
Definition has_handler (s : cancellation_slot) : M bool :=
  if handler_ s =? null then ret false
  else cur <- deref (handler_ s) ;; ret (negb (cur =? null)).

(** [operator==] and [operator!=] *)
Definition slot_eq (lhs rhs : cancellation_slot) : bool :=
  handler_ lhs =? handler_ rhs.

Definition slot_ne (lhs rhs : cancellation_slot) : bool :=
  negb (handler_ lhs =? handler_ rhs).

(** *** The shape the two overloads share

    [create] and [create_void] differ in the constructor they run, the two
    [emplace] overloads in the [create] they call and in what they return.
    The following definitions name the common parts; they are related to
    the overloads by [create_eq], [create_void_eq], [emplace_eq] and
    [emplace_void_eq] below. *)

Definition create_with (T : realization) (mem : N * N)
    (ctor : N -> outcome cancellation_handler_base) : M N :=
  mem <- (if mem.2 <? sizeof T then
            operator_delete mem.1 ;;;
            p <- operator_new (sizeof T) ;;
            ret (p, sizeof T)
          else ret mem) ;;
  try_catch
    (placement_new mem.1 T (ctor mem.2))
    (fun e => operator_delete mem.1 ;;; throw e).

Definition surrender_phase (s : cancellation_slot) : M (N * N) :=
  cur <- deref (handler_ s) ;;
  if cur =? null then ret (null, 0)
  else
    mem <- destroy cur ;;
    assign (handler_ s) null ;;;
    ret mem.

Definition emplace_with (s : cancellation_slot) (T : realization)
    (ctor : N -> outcome cancellation_handler_base) : M N :=
  assert_ (negb (handler_ s =? null)) ;;;
  mem <- surrender_phase s ;;
  handler_obj <- create_with T mem ctor ;;
  assign (handler_ s) handler_obj ;;;
  ret handler_obj.

(** Forgetting the value a computation returns. *)
Definition void {A} (m : M A) : M unit :=
  fun st =>
    match m st with
    | (st', Return _) => (st', Return tt)
    | (st', Throw e) => (st', Throw e)
    | (st', AssertFail) => (st', AssertFail)
    | (st', Undefined) => (st', Undefined)
    end.

(** A constructor of realization [T]: it throws, or it yields an object of
    dynamic type [T] that stores the size it was given. *)
Definition constructor_of (T : realization)
    (ctor : N -> outcome cancellation_handler_base) : Prop :=
  forall sz,
    (exists e, ctor sz = Throw e) \/
    (exists obj, ctor sz = Return obj /\ dynamic_type obj = T /\ size_ obj = sz).

(** What a call of a handler hands to the caller of [emit]: nothing, or
    the exception the handler threw. *)
Definition thrown (r : option UserExn) : outcome unit :=
  match r with
  | None => Return tt
  | Some e => Throw (user_exception e)
  end.

(** The size recorded by the object installed at [p]; nothing is installed
    at a pointer that is not a live block with an object. *)
Definition installed_size (st : state) (p : N) : N :=
  match heap st !! p with
  | Some (Block _ (Some r)) => size_ r
  | _ => 0
  end.

(** The trace of destructor runs once the object installed at [p], if
    there is one, has been surrendered by [destroy()]. *)
Definition surrendered (st : state) (p : N) : list (N * cancellation_handler_base) :=
  match heap st !! p with
  | Some (Block _ (Some r)) => destroyed st ++ [(p, r)]
  | _ => destroyed st
  end.

(** The outcomes of an [emplace] through the slot of the signal at [sg]
    whose [handler_] is [p], one rule for each path through [emplace] and
    [create]: the state it leaves and what the caller gets. *)
Inductive emplace_result (sg : positive) (T : realization)
    (ctor : N -> outcome cancellation_handler_base) (st : state) (p : N)
  : state -> outcome N -> Prop :=
| emplace_reuse_return obj :
    p <> null -> sizeof T <= installed_size st p ->
    ctor (installed_size st p) = Return obj ->
    emplace_result sg T ctor st p
      (State (<[p := Block (installed_size st p) (Some obj)]> (heap st))
             (signals st) (alloc_log st) (calls st) (surrendered st p))
      (Return p)
| emplace_reuse_throw e :
    p <> null -> sizeof T <= installed_size st p ->
    ctor (installed_size st p) = Throw e ->
    emplace_result sg T ctor st p
      (State (delete p (heap st)) (<[sg := null]> (signals st))
             (alloc_log st ++ [ev_delete p]) (calls st) (surrendered st p))
      (Throw e)
| emplace_grow_return q obj :
    installed_size st p < sizeof T ->
    allocate (delete p (heap st)) (sizeof T) = Some q ->
    ctor (sizeof T) = Return obj ->
    emplace_result sg T ctor st p
      (State (<[q := Block (sizeof T) (Some obj)]> (delete p (heap st)))
             (<[sg := q]> (signals st))
             (alloc_log st ++ [ev_delete p; ev_new (sizeof T) (Some q)])
             (calls st) (surrendered st p))
      (Return q)
| emplace_grow_bad_alloc :
    installed_size st p < sizeof T ->
    allocate (delete p (heap st)) (sizeof T) = None ->
    emplace_result sg T ctor st p
      (State (delete p (heap st)) (<[sg := null]> (signals st))
             (alloc_log st ++ [ev_delete p; ev_new (sizeof T) None])
             (calls st) (surrendered st p))
      (Throw bad_alloc)
| emplace_grow_throw q e :
    installed_size st p < sizeof T ->
    allocate (delete p (heap st)) (sizeof T) = Some q ->
    ctor (sizeof T) = Throw e ->
    emplace_result sg T ctor st p
      (State (delete p (heap st)) (<[sg := null]> (signals st))
             (alloc_log st ++ [ev_delete p; ev_new (sizeof T) (Some q); ev_delete q])
             (calls st) (surrendered st p))
      (Throw e)
| emplace_zero_size :
    p = null -> sizeof T = 0 ->
    emplace_result sg T ctor st p st Undefined.

(** ** A program using the interface

    One operation of a caller on signals and slots.  The slot operations
    take any slot value: one obtained from [slot], a default-constructed
    one, or one whose signal is gone. *)
Inductive op : Type :=
| op_signal_ctor (sg : positive)
| op_signal_dtor (sg : positive)
| op_emit (sg : positive)
| op_emplace (s : cancellation_slot) (T : realization) (handler : Handler) (args : Args)
| op_emplace_void (s : cancellation_slot) (T : realization) (handler : Handler)
| op_clear (s : cancellation_slot).

Definition run_op (o : op) : M unit :=
  match o with
  | op_signal_ctor sg => cancellation_signal_ctor sg
  | op_signal_dtor sg => cancellation_signal_dtor sg
  | op_emit sg => emit sg
  | op_emplace s T handler args => _ <- emplace s T handler args ;; ret tt
  | op_emplace_void s T handler => emplace_void s T handler
  | op_clear s => clear s
  end.

(** The caller catches what an operation throws and goes on; an abort or
    undefined behaviour ends the program. *)
Fixpoint run (ops : list op) (st : state) : state :=
  match ops with
  | [] => st
  | o :: ops' =>
      match run_op o st with
      | (st', Return _) => run ops' st'
      | (st', Throw _) => run ops' st'
      | (st', AssertFail) => st'
      | (st', Undefined) => st'
      end
  end.

(** A sequence of [emplace] calls through one slot, as long as they
    return; [None] when one of them does not. *)
Fixpoint emplace_each (s : cancellation_slot)
    (reqs : list (realization * Handler * Args)) (st : state) : option state :=
  match reqs with
  | [] => Some st
  | (T, handler, args) :: reqs' =>
      match emplace s T handler args st with
      | (st', Return _) => emplace_each s reqs' st'
      | _ => None
      end
  end.

(** The state before anything was allocated or constructed. *)
Definition init : state := State ∅ ∅ [] [] [].

(** Whether [o] destroys or replaces the record installed in the signal at
    [sg]. *)
Definition replaces_record (o : op) (sg : positive) : bool :=
  match o with
  | op_signal_ctor _ => false
  | op_signal_dtor sg' => bool_decide (sg' = sg)
  | op_emit _ => false
  | op_emplace s _ _ _ => handler_ s =? Npos sg
  | op_emplace_void s _ _ => handler_ s =? Npos sg
  | op_clear s => handler_ s =? Npos sg
  end.

(** *** What the allocation-counting harness counts *)

(** Blocks obtained from [::operator new]. *)
Fixpoint count_allocs (l : list alloc_event) : nat :=
  match l with
  | [] => 0%nat
  | ev_new _ (Some _) :: l' => S (count_allocs l')
  | _ :: l' => count_allocs l'
  end.

(** Blocks given back to [::operator delete]. *)
Fixpoint count_frees (l : list alloc_event) : nat :=
  match l with
  | [] => 0%nat
  | ev_delete p :: l' => if p =? null then count_frees l' else S (count_frees l')
  | _ :: l' => count_frees l'
  end.

(** The history of the address [p] in the log, read in the order of the
    calls: the size the block at [p] was last obtained with and how often
    it was given back since; [None] when no block was ever obtained at
    [p]. *)
Definition track (p : N) (acc : option (N * nat)) (e : alloc_event)
  : option (N * nat) :=
  match e with
  | ev_new sz (Some q) => if q =? p then Some (sz, 0%nat) else acc
  | ev_new _ None => acc
  | ev_delete q => if q =? p then prod_map id S <$> acc else acc
  end.

Definition last_allocation (p : N) (l : list alloc_event) : option (N * nat) :=
  fold_left (track p) l None.

(** *** The contract of the allocator and the invariant of the state *)

(** [::operator new] returns a block that is not null and not live. *)
Definition allocator_ok : Prop :=
  forall (h : gmap N block) (sz p : N),
    allocate h sz = Some p -> p <> null /\ h !! p = None.

(** The single-owner discipline: a signal's [handler_] is null or points
    to a live block that holds a record which fits and knows the capacity
    of the block; every live block is owned by exactly one signal; the
    allocation counters account for the live blocks. *)
Record wf (st : state) : Prop := Wf {
  wf_null : heap st !! null = None;
  wf_installed :
    forall sg p, signals st !! sg = Some p -> p <> null ->
      exists r, heap st !! p = Some (Block (size_ r) (Some r))
                /\ sizeof (dynamic_type r) <= size_ r;
  wf_owned :
    forall p b, heap st !! p = Some b -> exists sg, signals st !! sg = Some p;
  wf_unique :
    forall sg1 sg2 p, signals st !! sg1 = Some p -> signals st !! sg2 = Some p ->
      p <> null -> sg1 = sg2;
  wf_count :
    count_allocs (alloc_log st) = (count_frees (alloc_log st) + size (heap st))%nat
}.

(** The log agrees with the free store, and no block is freed twice: a
    live block was obtained with its capacity and not given back since, a
    block that is not live was given back once, if it was ever obtained,
    and no block was ever obtained at the null pointer. *)
Record log_agrees (st : state) : Prop := LogAgrees {
  la_null : last_allocation null (alloc_log st) = None;
  la_live :
    forall p b, heap st !! p = Some b ->
      last_allocation p (alloc_log st) = Some (capacity b, 0%nat);
  la_dead :
    forall p sz n, heap st !! p = None ->
      last_allocation p (alloc_log st) = Some (sz, n) -> n = 1%nat
}.

(** A computation keeps a property of the state, whatever its outcome. *)
Definition preserves {A} (I : state -> Prop) (m : M A) : Prop :=
  forall st, I st -> I (m st).1.

(** *** Using the interface as the header asks

    An outcome the caller can go on from: a normal return or an
    exception. *)
Definition completes {A} (r : outcome A) : bool :=
  match r with
  | Return _ => true
  | Throw _ => true
  | AssertFail => false
  | Undefined => false
  end.

(** Whether a signal object lives at [sg]. *)
Definition live (sg : positive) (st : state) : bool :=
  match signals st !! sg with
  | Some _ => true
  | None => false
  end.

(** The contract the header puts on its caller: a signal is constructed
    where none lives, it is destroyed or emitted while it lives, a handler
    is installed through a slot of a living signal (and no class has size
    0), and a slot that is cleared is disconnected or belongs to a living
    signal. *)
Definition well_used (o : op) (st : state) : bool :=
  match o with
  | op_signal_ctor sg => negb (live sg st)
  | op_signal_dtor sg => live sg st
  | op_emit sg => live sg st
  | op_emplace s T _ _ =>
      match handler_ s with
      | N0 => false
      | Npos sg => live sg st && (0 <? sizeof T)
      end
  | op_emplace_void s T _ =>
      match handler_ s with
      | N0 => false
      | Npos sg => live sg st && (0 <? sizeof T)
      end
  | op_clear s =>
      match handler_ s with
      | N0 => true
      | Npos sg => live sg st
      end
  end.

(** A program keeps the contract when each of its operations does, in the
    state the operations before it have left. *)
Fixpoint well_used_all (ops : list op) (st : state) : bool :=
  match ops with
  | [] => true
  | o :: ops' => well_used o st && well_used_all ops' (run_op o st).1
  end.

(** Whether a program runs into a failed assertion or undefined
    behaviour. *)
Fixpoint aborts (ops : list op) (st : state) : bool :=
  match ops with
  | [] => false
  | o :: ops' =>
      match run_op o st with
      | (st', Return _) => aborts ops' st'
      | (st', Throw _) => aborts ops' st'
      | (_, AssertFail) => true
      | (_, Undefined) => true
      end
  end.

(** Whether [o] is an operation on the signal at [sg] or on one of its
    slots. *)
Definition mentions (o : op) (sg : positive) : bool :=
  match o with
  | op_signal_ctor sg' => bool_decide (sg' = sg)
  | op_signal_dtor sg' => bool_decide (sg' = sg)
  | op_emit sg' => bool_decide (sg' = sg)
  | op_emplace s _ _ _ => handler_ s =? Npos sg
  | op_emplace_void s _ _ => handler_ s =? Npos sg
  | op_clear s => handler_ s =? Npos sg
  end.

(** What [emit] may change in a record: the context.  The rest of a block
    is its capacity and, of the record in it, the dynamic type, the handler
    and the stored size. *)
Definition block_frame (b : block)
  : N * option (realization * Handler * N) :=
  (capacity b,
   (fun r => (dynamic_type r, stored_handler r, size_ r)) <$> object b).

End Model.

(** ** A concrete caller and platform

    Handlers, contexts, constructor arguments and exceptions are numbers; a
    realization is given by its size.  The handler [13] cannot be
    constructed, nor can a context from the argument [0].  A handler adds
    its own value to the context it is called with.  The allocator hands
    out the least fresh address and refuses requests above 4096 bytes. *)
Module Demo.

#[export] Instance types : UserTypes := {|
  Handler := nat;
  ContextT := nat;
  Args := nat;
  UserExn := nat;
  realization := N;
  sizeof := fun T => T;
  handler_ctor := fun h => if Nat.eqb h 13 then Some 1%nat else None;
  context_ctor := fun a => if Nat.eqb a 0 then inl 2%nat else inr a;
  handler_call := fun h c => ((c + h)%nat, None);
  handler_call_void := fun _ => None
|}.

Definition least_fresh (h : gmap N block) : N :=
  fresh ({[null]} ∪ dom h).

#[export] Instance platform : Platform := {|
  NDEBUG := false;
  allocate := fun h sz => if sz <=? 4096 then Some (least_fresh h) else None
|}.

(** A signal at location 1, without handler. *)
Definition st0 : state := run [op_signal_ctor 1] init.

(** The same signal with a handler of 64 bytes installed. *)
Definition st64 : state :=
  run [op_signal_ctor 1; op_emplace (slot 1) 64 7%nat 5%nat] init.

(** The handler replaced by one of 32 bytes, and by one of 100 bytes. *)
Definition st64_32 : state := (emplace (slot 1) 32 3%nat 5%nat st64).1.
Definition st64_100 : state := (emplace (slot 1) 100 3%nat 5%nat st64).1.

(** The replacement by one of 100 bytes whose handler cannot be
    constructed. *)
Definition st64_100_failed : state := (emplace (slot 1) 100 13%nat 5%nat st64).1.


(** The program that installs the 64-byte handler and replaces it by the
    32-byte one. *)
Definition program_64_32 : list op :=
  [op_signal_ctor 1;
   op_emplace (slot 1) 64 7%nat 5%nat;
   op_emplace (slot 1) 32 3%nat 5%nat].

(** The slot cleared, and the signal destroyed. *)
Definition st64_cleared : state := (clear (slot 1) st64).1.
Definition st64_gone : state := (cancellation_signal_dtor 1 st64).1.

(** The signal with a context-free handler of 16 bytes installed. *)
Definition st16_void : state :=
  run [op_signal_ctor 1; op_emplace_void (slot 1) 16 9%nat] init.

(** The 64-byte handler replaced by the context-free one, and the failed
    attempt to replace it by the context-free handler [13]. *)
Definition st64_void16 : state := (emplace_void (slot 1) 16 9%nat st64).1.
Definition st64_void_failed : state := (emplace_void (slot 1) 16 13%nat st64).1.

(** The cleared signal with a handler of 32 bytes installed. *)
Definition st_cleared_32 : state :=
  (emplace (slot 1) 32 3%nat 5%nat st64_cleared).1.

(** A replacement through the slot of signal 2 that needs a fresh
    block. *)
Definition op_grow_two : op := op_emplace (slot 2) 100 8%nat 6%nat.

(** Three replacements that fit a block of 64 bytes. *)
Definition requests_fit : list (realization * Handler * Args) :=
  [(32, 3%nat, 5%nat); (64, 7%nat, 5%nat); (16, 3%nat, 5%nat)].

(** Two signals, each with a handler. *)
Definition st_two : state :=
  run [op_signal_ctor 1; op_signal_ctor 2;
       op_emplace (slot 1) 64 7%nat 5%nat;
       op_emplace (slot 2) 24 8%nat 6%nat] init.

(** A program that installs, replaces (with and without a fresh block),
    fails to replace, installs again, clears, and destroys every signal. *)
Definition program_full : list op :=
  [op_signal_ctor 1; op_signal_ctor 2;
   op_emplace (slot 1) 64 7%nat 5%nat;
   op_emplace (slot 2) 24 8%nat 6%nat;
   op_emplace (slot 1) 32 3%nat 5%nat;
   op_emit 1;
   op_emplace (slot 1) 100 3%nat 5%nat;
   op_emplace (slot 1) 32 13%nat 5%nat;
   op_emplace_void (slot 1) 16 9%nat;
   op_clear (slot 2);
   op_emplace (slot 2) 5000 8%nat 6%nat;
   op_signal_dtor 1; op_signal_dtor 2].

End Demo.

(** * Properties *)

Section Properties.
Context `{UT : UserTypes} `{PF : !Platform}.

Arguments last_allocation : simpl never.

(** ** Slots are values: identity and connection *)

Lemma is_connected_slot (sg : positive) : is_connected (slot sg) = true.
Proof. reflexivity. Qed.

Lemma is_connected_default : is_connected cancellation_slot_default = false.
Proof. reflexivity. Qed.

(** A connected slot is the slot of some signal location. *)
Lemma connected_is_slot (s : cancellation_slot) :
  is_connected s = true -> exists sg, s = slot sg.
Proof.
  destruct s as [[|sg]]; cbn; [discriminate|].
  intros _. by exists sg.
Qed.

Lemma slot_eq_spec (a b : cancellation_slot) :
  slot_eq a b = true <-> handler_ a = handler_ b.
Proof. unfold slot_eq. apply N.eqb_eq. Qed.

Lemma slot_ne_negb (a b : cancellation_slot) : slot_ne a b = negb (slot_eq a b).
Proof. reflexivity. Qed.

(** ** Elementary steps *)

Lemma load_signal_live (sg : positive) (h : N) (st : state) :
  signals st !! sg = Some h -> load_signal sg st = (st, Return h).
Proof. unfold load_signal. by intros ->. Qed.

Lemma store_signal_live (sg : positive) (h h' : N) (st : state) :
  signals st !! sg = Some h ->
  store_signal sg h' st = (set_signals (insert sg h') st, Return tt).
Proof. unfold store_signal. by intros ->. Qed.

Lemma destroy_live (p cap : N) (r : cancellation_handler_base) (st : state) :
  heap st !! p = Some (Block cap (Some r)) ->
  destroy p st =
    (log_destroy (p, r) (set_heap (insert p (Block cap None)) st),
     Return (p, size_ r)).
Proof. unfold destroy. by intros ->. Qed.

Lemma operator_delete_live (p : N) (b : block) (st : state) :
  p <> null -> heap st !! p = Some b ->
  operator_delete p st = (log_alloc (ev_delete p) (set_heap (delete p) st), Return tt).
Proof.
  unfold operator_delete. intros Hp ->.
  by destruct (N.eqb_spec p null).
Qed.

Lemma operator_delete_null (st : state) :
  operator_delete null st = (log_alloc (ev_delete null) st, Return tt).
Proof. reflexivity. Qed.

Lemma eqb_null_false (p : N) : p <> null -> (p =? null) = false.
Proof. intros. by apply N.eqb_neq. Qed.

(** ** emit *)

Lemma emit_empty (sg : positive) (st : state) :
  signals st !! sg = Some null -> emit sg st = (st, Return tt).
Proof.
  intros Hsg. unfold emit, bind.
  by rewrite (load_signal_live _ _ _ Hsg).
Qed.

(** C3: [emit()] on a signal without an installed handler record returns
    at once and leaves the whole state as it was: no handler is invoked
    (the call trace is the same), the allocator is not called (the
    allocation log is the same), the signal stays without handler. *)
Theorem emit_no_handler_noop (sg : positive) (st : state) :
  signals st !! sg = Some null ->
  emit sg st = (st, Return tt)
  /\ calls (emit sg st).1 = calls st
  /\ alloc_log (emit sg st).1 = alloc_log st
  /\ signals (emit sg st).1 !! sg = Some null.
Proof.
  intros Hsg. by rewrite (emit_empty _ _ Hsg).
Qed.

(** ** clear *)

Lemma clear_empty (sg : positive) (st : state) :
  signals st !! sg = Some null -> clear (slot sg) st = (st, Return tt).
Proof.
  intros Hsg. unfold clear, bind. cbn.
  by rewrite (load_signal_live _ _ _ Hsg).
Qed.

Lemma clear_installed (sg : positive) (p cap : N) (r : cancellation_handler_base)
    (st : state) :
  signals st !! sg = Some p -> p <> null ->
  heap st !! p = Some (Block cap (Some r)) ->
  clear (slot sg) st =
    (State (delete p (heap st)) (<[sg := null]> (signals st))
           (alloc_log st ++ [ev_delete p]) (calls st)
           (destroyed st ++ [(p, r)]), Return tt).
Proof.
  intros Hsg Hp Hheap. unfold clear, bind. cbn.
  rewrite (load_signal_live _ _ _ Hsg), (eqb_null_false _ Hp).
  rewrite (destroy_live _ _ _ _ Hheap). cbn.
  erewrite operator_delete_live; [|done|cbn; apply lookup_insert_eq].
  erewrite store_signal_live by (cbn; exact Hsg).
  unfold set_signals, log_alloc, set_heap. cbn.
  by rewrite delete_insert_eq.
Qed.

Lemma clear_returns_empty (sg : positive) (st st' : state) :
  clear (slot sg) st = (st', Return tt) -> signals st' !! sg = Some null.
Proof.
  unfold clear, bind. cbn. unfold load_signal.
  destruct (signals st !! sg) as [cur|] eqn:Hsg; [|discriminate].
  destruct (N.eqb_spec cur null) as [->|Hcur].
  - by intros [= <-].
  - unfold destroy.
    destruct (heap st !! cur) as [[cap [r|]]|] eqn:Hheap; try discriminate.
    cbn. erewrite operator_delete_live; [|done|cbn; apply lookup_insert_eq].
    erewrite store_signal_live by (cbn; exact Hsg).
    intros [= <-]. cbn. apply lookup_insert_eq.
Qed.

Lemma has_handler_empty (sg : positive) (st : state) :
  signals st !! sg = Some null -> has_handler (slot sg) st = (st, Return false).
Proof.
  intros Hsg. unfold has_handler, bind. cbn.
  by rewrite (load_signal_live _ _ _ Hsg).
Qed.

(** ** The overloads and their common shape *)

Lemma bind_assoc {A B C} (m : M A) (k : A -> M B) (k' : B -> M C) (st : state) :
  bind (bind m k) k' st = bind m (fun a => bind (k a) k') st.
Proof. unfold bind. by destruct (m st) as [st1 [a|e| |]]. Qed.

Lemma bind_return {A B} (m : M A) (k : A -> M B) (st st1 : state) (a : A) :
  m st = (st1, Return a) -> bind m k st = k a st1.
Proof. unfold bind. by intros ->. Qed.

Lemma bind_throw {A B} (m : M A) (k : A -> M B) (st st1 : state) (e : exception) :
  m st = (st1, Throw e) -> bind m k st = (st1, Throw e).
Proof. unfold bind. by intros ->. Qed.

Lemma create_eq (T : realization) (mem : N * N) (h : Handler) (args : Args) :
  create T mem h args = create_with T mem (fun sz => construct T sz h args).
Proof. reflexivity. Qed.

Lemma create_void_eq (T : realization) (mem : N * N) (h : Handler) :
  create_void T mem h = create_with T mem (fun sz => construct_void T sz h).
Proof. reflexivity. Qed.

Lemma emplace_eq (s : cancellation_slot) (T : realization) (h : Handler)
    (args : Args) (st : state) :
  emplace s T h args st = emplace_with s T (fun sz => construct T sz h args) st.
Proof.
  unfold emplace, emplace_with, surrender_phase, context, bind.
  destruct (assert_ _ st) as [st1 [[]|e| |]]; try done.
  destruct (deref _ st1) as [st2 [cur|e| |]]; try done.
Qed.

Lemma emplace_void_eq (s : cancellation_slot) (T : realization) (h : Handler)
    (st : state) :
  emplace_void s T h st =
    void (emplace_with s T (fun sz => construct_void T sz h)) st.
Proof.
  unfold emplace_void, emplace_with, surrender_phase, void, bind.
  destruct (assert_ _ st) as [st1 [[]|e| |]]; try done.
  destruct (deref _ st1) as [st2 [cur|e| |]]; try done.
  destruct (if cur =? null then _ else _) as [st3 [mem|e| |]]; try done.
  change (create_with T mem _) with (create_void T mem h).
  destruct (create_void _ _ _ st3) as [st4 [obj|e| |]]; try done.
  unfold ret. by destruct (assign _ _ st4) as [st5 [[]|e| |]].
Qed.

Lemma construct_is_constructor (T : realization) (h : Handler) (args : Args) :
  constructor_of T (fun sz => construct T sz h args).
Proof.
  intros sz. unfold construct.
  destruct (handler_ctor h); [left; eauto|].
  destruct (context_ctor args); [left; eauto|right; eauto].
Qed.

Lemma construct_void_is_constructor (T : realization) (h : Handler) :
  constructor_of T (fun sz => construct_void T sz h).
Proof.
  intros sz. unfold construct_void.
  destruct (handler_ctor h); [left; eauto|right; eauto].
Qed.

(** ** The first half of emplace: the installed record is surrendered *)

Lemma surrender_phase_empty (sg : positive) (st : state) :
  signals st !! sg = Some null ->
  surrender_phase (slot sg) st = (st, Return (null, 0)).
Proof.
  intros Hsg. unfold surrender_phase, bind. cbn.
  by rewrite (load_signal_live _ _ _ Hsg).
Qed.

Lemma surrender_phase_installed (sg : positive) (p cap : N)
    (r : cancellation_handler_base) (st : state) :
  signals st !! sg = Some p -> p <> null ->
  heap st !! p = Some (Block cap (Some r)) ->
  surrender_phase (slot sg) st =
    (State (<[p := Block cap None]> (heap st)) (<[sg := null]> (signals st))
           (alloc_log st) (calls st)
           (destroyed st ++ [(p, r)]), Return (p, size_ r)).
Proof.
  intros Hsg Hp Hheap. unfold surrender_phase, bind. cbn.
  rewrite (load_signal_live _ _ _ Hsg), (eqb_null_false _ Hp).
  rewrite (destroy_live _ _ _ _ Hheap). cbn.
  by erewrite store_signal_live by (cbn; exact Hsg).
Qed.

(** ** create, case by case *)

Lemma placement_new_return (p cap : N) (o : option cancellation_handler_base)
    (T : realization) (obj : cancellation_handler_base) (st : state) :
  heap st !! p = Some (Block cap o) -> sizeof T <= cap ->
  placement_new p T (Return obj) st =
    (set_heap (insert p (Block cap (Some obj))) st, Return p).
Proof.
  intros Hheap Hle. unfold placement_new. rewrite Hheap. cbn.
  by rewrite (proj2 (N.leb_le _ _) Hle).
Qed.

Lemma placement_new_throw (p cap : N) (o : option cancellation_handler_base)
    (T : realization) (e : exception) (st : state) :
  heap st !! p = Some (Block cap o) -> sizeof T <= cap ->
  placement_new p T (Throw e) st = (st, Throw e).
Proof.
  intros Hheap Hle. unfold placement_new. rewrite Hheap. cbn.
  by rewrite (proj2 (N.leb_le _ _) Hle).
Qed.

(** The candidate block is large enough and the constructor succeeds: the
    allocator is not called. *)
Lemma create_with_reuse_return (T : realization) (p sz cap : N)
    (o : option cancellation_handler_base)
    (ctor : N -> outcome cancellation_handler_base)
    (obj : cancellation_handler_base) (st : state) :
  sizeof T <= sz -> sizeof T <= cap ->
  heap st !! p = Some (Block cap o) ->
  ctor sz = Return obj ->
  create_with T (p, sz) ctor st =
    (State (<[p := Block cap (Some obj)]> (heap st)) (signals st)
           (alloc_log st) (calls st) (destroyed st), Return p).
Proof.
  intros Hsz Hcap Hheap Hctor. unfold create_with, bind, try_catch. cbn.
  rewrite (proj2 (N.ltb_ge _ _) Hsz). cbn. rewrite Hctor.
  by rewrite (placement_new_return _ _ _ _ _ _ Hheap Hcap).
Qed.

(** The candidate block is large enough and the constructor throws: the
    block is freed. *)
Lemma create_with_reuse_throw (T : realization) (p sz cap : N)
    (o : option cancellation_handler_base)
    (ctor : N -> outcome cancellation_handler_base)
    (e : exception) (st : state) :
  sizeof T <= sz -> sizeof T <= cap -> p <> null ->
  heap st !! p = Some (Block cap o) ->
  ctor sz = Throw e ->
  create_with T (p, sz) ctor st =
    (State (delete p (heap st)) (signals st)
           (alloc_log st ++ [ev_delete p]) (calls st) (destroyed st), Throw e).
Proof.
  intros Hsz Hcap Hp Hheap Hctor. unfold create_with, bind, try_catch. cbn.
  rewrite (proj2 (N.ltb_ge _ _) Hsz). cbn. rewrite Hctor.
  rewrite (placement_new_throw _ _ _ _ _ _ Hheap Hcap).
  by rewrite (operator_delete_live _ _ _ Hp Hheap).
Qed.

Lemma operator_delete_candidate (p : N) (st : state) :
  heap st !! null = None ->
  p = null \/ is_Some (heap st !! p) ->
  operator_delete p st =
    (State (delete p (heap st)) (signals st) (alloc_log st ++ [ev_delete p])
           (calls st) (destroyed st), Return tt).
Proof.
  intros Hnull [->|[b Hb]].
  - rewrite operator_delete_null. unfold log_alloc. by rewrite delete_id.
  - assert (p <> null) by (intros ->; congruence).
    by rewrite (operator_delete_live _ _ _ H Hb).
Qed.

Lemma operator_new_some (sz q : N) (st : state) :
  allocate (heap st) sz = Some q ->
  operator_new sz st =
    (State (<[q := Block sz None]> (heap st)) (signals st)
           (alloc_log st ++ [ev_new sz (Some q)]) (calls st) (destroyed st), Return q).
Proof. unfold operator_new. by intros ->. Qed.

Lemma operator_new_none (sz : N) (st : state) :
  allocate (heap st) sz = None ->
  operator_new sz st =
    (State (heap st) (signals st) (alloc_log st ++ [ev_new sz None]) (calls st) (destroyed st),
     Throw bad_alloc).
Proof. unfold operator_new. by intros ->. Qed.

(** The candidate block is too small and the allocator is exhausted. *)
Lemma create_with_grow_bad_alloc (T : realization) (p sz : N)
    (ctor : N -> outcome cancellation_handler_base) (st : state) :
  sz < sizeof T -> heap st !! null = None ->
  p = null \/ is_Some (heap st !! p) ->
  allocate (delete p (heap st)) (sizeof T) = None ->
  create_with T (p, sz) ctor st =
    (State (delete p (heap st)) (signals st)
           (alloc_log st ++ [ev_delete p; ev_new (sizeof T) None]) (calls st) (destroyed st),
     Throw bad_alloc).
Proof.
  intros Hsz Hnull Hp Halloc. unfold create_with, bind. cbn.
  rewrite (proj2 (N.ltb_lt _ _) Hsz).
  rewrite (operator_delete_candidate _ _ Hnull Hp).
  rewrite operator_new_none by exact Halloc. cbn.
  by rewrite <- app_assoc.
Qed.

(** The candidate block is too small, a fresh block is obtained and the
    constructor succeeds. *)
Lemma create_with_grow_return (T : realization) (p sz q : N)
    (ctor : N -> outcome cancellation_handler_base)
    (obj : cancellation_handler_base) (st : state) :
  sz < sizeof T -> heap st !! null = None ->
  p = null \/ is_Some (heap st !! p) ->
  allocate (delete p (heap st)) (sizeof T) = Some q ->
  ctor (sizeof T) = Return obj ->
  create_with T (p, sz) ctor st =
    (State (<[q := Block (sizeof T) (Some obj)]> (delete p (heap st))) (signals st)
           (alloc_log st ++ [ev_delete p; ev_new (sizeof T) (Some q)]) (calls st) (destroyed st),
     Return q).
Proof.
  intros Hsz Hnull Hp Halloc Hctor. unfold create_with, bind, try_catch. cbn.
  rewrite (proj2 (N.ltb_lt _ _) Hsz).
  rewrite (operator_delete_candidate _ _ Hnull Hp).
  rewrite (operator_new_some _ q) by exact Halloc. cbn. rewrite Hctor.
  erewrite placement_new_return; [|cbn; apply lookup_insert_eq|lia].
  unfold set_heap. cbn. by rewrite insert_insert_eq, <- app_assoc.
Qed.

(** The candidate block is too small, a fresh block is obtained and the
    constructor throws: the fresh block is freed again. *)
Lemma create_with_grow_throw (T : realization) (p sz q : N)
    (ctor : N -> outcome cancellation_handler_base)
    (e : exception) (st : state) :
  allocator_ok ->
  sz < sizeof T -> heap st !! null = None ->
  p = null \/ is_Some (heap st !! p) ->
  allocate (delete p (heap st)) (sizeof T) = Some q ->
  ctor (sizeof T) = Throw e ->
  create_with T (p, sz) ctor st =
    (State (delete p (heap st)) (signals st)
           (alloc_log st ++ [ev_delete p; ev_new (sizeof T) (Some q); ev_delete q])
           (calls st) (destroyed st),
     Throw e).
Proof.
  intros Hok Hsz Hnull Hp Halloc Hctor.
  destruct (Hok _ _ _ Halloc) as [Hq Hfresh].
  unfold create_with, bind, try_catch. cbn.
  rewrite (proj2 (N.ltb_lt _ _) Hsz).
  rewrite (operator_delete_candidate _ _ Hnull Hp).
  rewrite (operator_new_some _ q) by exact Halloc. cbn. rewrite Hctor.
  erewrite placement_new_throw; [|cbn; apply lookup_insert_eq|lia].
  erewrite operator_delete_live; [|done|cbn; apply lookup_insert_eq].
  unfold log_alloc, set_heap, throw. cbn.
  rewrite delete_insert_eq, (delete_id _ _ Hfresh).
  by rewrite <- !app_assoc.
Qed.

(** ** emplace, path by path *)

Lemma assert_true (st : state) : assert_ true st = (st, Return tt).
Proof. unfold assert_. by destruct NDEBUG. Qed.

Lemma installed_size_null (st : state) :
  heap st !! null = None -> installed_size st null = 0.
Proof. unfold installed_size. by intros ->. Qed.

Lemma installed_size_live (st : state) (p cap : N) (r : cancellation_handler_base) :
  heap st !! p = Some (Block cap (Some r)) -> installed_size st p = size_ r.
Proof. unfold installed_size. by intros ->. Qed.

Lemma surrendered_null (st : state) :
  heap st !! null = None -> surrendered st null = destroyed st.
Proof. unfold surrendered. by intros ->. Qed.

Lemma surrendered_live (st : state) (p cap : N) (r : cancellation_handler_base) :
  heap st !! p = Some (Block cap (Some r)) ->
  surrendered st p = destroyed st ++ [(p, r)].
Proof. unfold surrendered. by intros ->. Qed.

(** Every [emplace] through the slot of a live signal follows one of the
    paths of [emplace_result]. *)
Lemma emplace_with_spec (sg : positive) (T : realization)
    (ctor : N -> outcome cancellation_handler_base) (st : state) (p : N) :
  allocator_ok -> constructor_of T ctor ->
  heap st !! null = None ->
  signals st !! sg = Some p ->
  (p <> null -> exists r, heap st !! p = Some (Block (size_ r) (Some r))) ->
  exists st' res,
    emplace_with (slot sg) T ctor st = (st', res)
    /\ emplace_result sg T ctor st p st' res.
Proof.
  intros Hok Hctor Hnull Hsg Hinst.
  unfold emplace_with. cbn [slot handler_ negb N.eqb null].
  rewrite (bind_return _ _ _ _ _ (assert_true st)).
  destruct (N.eq_dec p null) as [->|Hp].
  - (* nothing installed *)
    rewrite (bind_return _ _ _ _ _ (surrender_phase_empty _ _ Hsg)).
    pose proof (installed_size_null _ Hnull) as Hsize.
    pose proof (surrendered_null _ Hnull) as Hsur.
    destruct (N.eq_dec (sizeof T) 0) as [Hz|Hnz].
    + exists st, Undefined. split; [|by constructor].
      unfold bind, create_with, ret, try_catch, placement_new. cbn.
      rewrite Hz. cbn. fold null. by rewrite Hnull.
    + assert (0 < sizeof T) as Hlt by lia.
      destruct (allocate (delete null (heap st)) (sizeof T)) as [q|] eqn:Halloc.
      * destruct (Hctor (sizeof T)) as [[e He]|[obj (Hobj & _ & _)]].
        -- eexists _, _. split.
           ++ erewrite bind_throw; [reflexivity|].
              by apply create_with_grow_throw; auto.
           ++ rewrite <- (insert_id _ _ _ Hsg) at 1.
              rewrite <- Hsur. apply emplace_grow_throw; rewrite ?Hsize; auto.
        -- eexists _, _. split.
           ++ erewrite bind_return
                by (apply create_with_grow_return; eauto).
              unfold bind, ret. cbn.
              erewrite store_signal_live by (cbn; exact Hsg). reflexivity.
           ++ unfold set_signals. cbn.
              rewrite <- Hsur. apply emplace_grow_return; rewrite ?Hsize; auto.
      * eexists _, _. split.
        -- erewrite bind_throw; [reflexivity|].
           by apply create_with_grow_bad_alloc; auto.
        -- rewrite <- (insert_id _ _ _ Hsg) at 1.
           rewrite <- Hsur. apply emplace_grow_bad_alloc; rewrite ?Hsize; auto.
  - (* a record is installed *)
    destruct (Hinst Hp) as [r Hr].
    rewrite (bind_return _ _ _ _ _ (surrender_phase_installed _ _ _ _ _ Hsg Hp Hr)).
    pose proof (installed_size_live _ _ _ _ Hr) as Hsize.
    pose proof (surrendered_live _ _ _ _ Hr) as Hsur.
    set (st1 := State _ _ _ _ _).
    assert (heap st1 !! null = None) as Hnull1
      by (cbn; rewrite lookup_insert_ne; done).
    assert (heap st1 !! p = Some (Block (size_ r) None)) as Hp1
      by (cbn; apply lookup_insert_eq).
    assert (delete p (heap st1) = delete p (heap st)) as Hdel
      by (cbn; apply delete_insert_eq).
    assert (signals st1 !! sg = Some null) as Hsg1
      by (cbn; apply lookup_insert_eq).
    destruct (N.le_gt_cases (sizeof T) (size_ r)) as [Hle|Hgt].
    + destruct (Hctor (size_ r)) as [[e He]|[obj (Hobj & _ & _)]].
      * eexists _, _. split.
        -- erewrite bind_throw; [reflexivity|].
           eapply create_with_reuse_throw; eauto.
        -- rewrite Hdel. cbn.
           rewrite <- Hsur. apply emplace_reuse_throw; rewrite ?Hsize; auto.
      * eexists _, _. split.
        -- erewrite bind_return
             by (eapply create_with_reuse_return; eauto).
           unfold bind, ret. cbn.
           erewrite store_signal_live by (cbn; exact Hsg1). reflexivity.
        -- unfold set_signals. cbn.
           rewrite !insert_insert_eq, (insert_id _ _ _ Hsg).
           rewrite <- Hsize.
           rewrite <- Hsur. apply emplace_reuse_return; rewrite ?Hsize; auto.
    + destruct (allocate (delete p (heap st)) (sizeof T)) as [q|] eqn:Halloc.
      * destruct (Hctor (sizeof T)) as [[e He]|[obj (Hobj & _ & _)]].
        -- eexists _, _. split.
           ++ erewrite bind_throw; [reflexivity|].
              apply create_with_grow_throw; rewrite ?Hdel; eauto.
           ++ rewrite Hdel. cbn.
              rewrite <- Hsur. apply emplace_grow_throw; rewrite ?Hsize; auto.
        -- eexists _, _. split.
           ++ erewrite bind_return
                by (apply create_with_grow_return; rewrite ?Hdel; eauto).
              unfold bind, ret. cbn.
              erewrite store_signal_live by (cbn; apply lookup_insert_eq).
              reflexivity.
           ++ unfold set_signals. cbn.
              rewrite delete_insert_eq, insert_insert_eq.
              rewrite <- Hsur. apply emplace_grow_return; rewrite ?Hsize; auto.
      * eexists _, _. split.
        -- erewrite bind_throw; [reflexivity|].
           apply create_with_grow_bad_alloc; rewrite ?Hdel; eauto.
        -- rewrite Hdel. cbn.
           rewrite <- Hsur. apply emplace_grow_bad_alloc; rewrite ?Hsize; auto.
Qed.

(** ** The invariant *)

Lemma count_allocs_app (l l' : list alloc_event) :
  count_allocs (l ++ l') = (count_allocs l + count_allocs l')%nat.
Proof.
  induction l as [|[sz [q|]|q] l IH]; cbn; auto.
Qed.

Lemma count_frees_app (l l' : list alloc_event) :
  count_frees (l ++ l') = (count_frees l + count_frees l')%nat.
Proof.
  induction l as [|[sz r|q] l IH]; cbn; auto.
  destruct (q =? null); cbn; auto.
Qed.

Lemma wf_init : wf init.
Proof.
  split; cbn; try done.
Qed.

(** Neither the traces of handler calls and of destructor runs nor
    allocator calls that leave the counters balanced matter to the
    invariant. *)
Lemma wf_log h s l c d d' (l' : list alloc_event) (c' : list call_event) :
  wf (State h s l c d) ->
  count_allocs l' = count_frees l' ->
  wf (State h s (l ++ l') c' d').
Proof.
  intros [H1 H2 H3 H4 H5] Hl. split; cbn in *; auto.
  rewrite count_allocs_app, count_frees_app. lia.
Qed.

(** The block of a signal is freed and the signal left without handler. *)
Lemma wf_release h s l c d d' (sg : positive) (p : N) :
  wf (State h s l c d) -> s !! sg = Some p ->
  wf (State (delete p h) (<[sg := null]> s) (l ++ [ev_delete p]) c d').
Proof.
  intros [H1 H2 H3 H4 H5] Hsg. cbn in *.
  assert (forall sg' p', <[sg := null]> s !! sg' = Some p' -> p' <> null ->
            sg' <> sg /\ s !! sg' = Some p' /\ p' <> p) as Hother.
  { intros sg' p' Hl Hp'. destruct (decide (sg' = sg)) as [->|Hne].
    - rewrite lookup_insert_eq in Hl. congruence.
    - rewrite lookup_insert_ne in Hl by done. repeat split; auto.
      intros ->. apply Hne. eauto. }
  split; cbn.
  - destruct (decide (p = null)) as [->|Hp].
    + apply lookup_delete_eq.
    + by rewrite lookup_delete_ne.
  - intros sg' p' Hl Hp'. destruct (Hother _ _ Hl Hp') as (_ & Hs & Hpp).
    rewrite lookup_delete_ne by done. eauto.
  - intros p' b Hl. apply lookup_delete_Some in Hl as [Hpp Hl].
    destruct (H3 _ _ Hl) as [sg' Hsg'].
    exists sg'. rewrite lookup_insert_ne; [done|]. congruence.
  - intros sg1 sg2 p' Hl1 Hl2 Hp'.
    destruct (Hother _ _ Hl1 Hp') as (_ & Hs1 & _).
    destruct (Hother _ _ Hl2 Hp') as (_ & Hs2 & _). eauto.
  - rewrite count_allocs_app, count_frees_app. cbn.
    destruct (N.eqb_spec p null) as [->|Hp].
    + rewrite delete_id by done. lia.
    + destruct (H2 _ _ Hsg Hp) as (r & Hr & _).
      rewrite map_size_delete, Hr. cbn.
      assert (size h <> 0%nat)
        by (apply (map_size_ne_0_lookup_2 _ p); eauto).
      lia.
Qed.

(** A record in a fresh block is installed in a signal without handler. *)
Lemma wf_install h s l c d d' (sg : positive) (q cap : N)
    (obj : cancellation_handler_base) :
  wf (State h s l c d) -> s !! sg = Some null ->
  q <> null -> h !! q = None ->
  size_ obj = cap -> sizeof (dynamic_type obj) <= cap ->
  wf (State (<[q := Block cap (Some obj)]> h) (<[sg := q]> s)
            (l ++ [ev_new cap (Some q)]) c d').
Proof.
  intros [H1 H2 H3 H4 H5] Hsg Hq Hfresh Hsize Hfit. cbn in *.
  assert (forall sg', s !! sg' = Some q -> False) as Hnot.
  { intros sg' Hl. destruct (H2 _ _ Hl Hq) as (r & Hr & _). congruence. }
  split; cbn.
  - by rewrite lookup_insert_ne.
  - intros sg' p' Hl Hp'. destruct (decide (sg' = sg)) as [->|Hne].
    + rewrite lookup_insert_eq in Hl. injection Hl as <-.
      exists obj. rewrite lookup_insert_eq, Hsize. split; [done|lia].
    + rewrite lookup_insert_ne in Hl by done.
      rewrite lookup_insert_ne by (intros ->; eauto). eauto.
  - intros p' b Hl. destruct (decide (p' = q)) as [->|Hne].
    + exists sg. apply lookup_insert_eq.
    + rewrite lookup_insert_ne in Hl by done.
      destruct (H3 _ _ Hl) as [sg' Hsg']. exists sg'.
      rewrite lookup_insert_ne; [done|]. intros ->.
      rewrite Hsg in Hsg'. injection Hsg' as <-. congruence.
  - intros sg1 sg2 p' Hl1 Hl2 Hp'.
    destruct (decide (sg1 = sg)) as [->|Hne1];
      destruct (decide (sg2 = sg)) as [->|Hne2]; auto.
    + rewrite lookup_insert_eq in Hl1. injection Hl1 as <-.
      rewrite lookup_insert_ne in Hl2 by done. by destruct (Hnot _ Hl2).
    + rewrite lookup_insert_eq in Hl2. injection Hl2 as <-.
      rewrite lookup_insert_ne in Hl1 by done. by destruct (Hnot _ Hl1).
    + rewrite lookup_insert_ne in Hl1, Hl2 by done. eauto.
  - rewrite count_allocs_app, count_frees_app. cbn.
    rewrite map_size_insert_None by done. lia.
Qed.

(** The object in the block of a signal is replaced by one that records
    the same size. *)
Lemma wf_replace h s l c d d' (sg : positive) (p : N)
    (r obj : cancellation_handler_base) :
  wf (State h s l c d) -> s !! sg = Some p -> p <> null ->
  h !! p = Some (Block (size_ r) (Some r)) ->
  size_ obj = size_ r -> sizeof (dynamic_type obj) <= size_ r ->
  wf (State (<[p := Block (size_ r) (Some obj)]> h) s l c d').
Proof.
  intros [H1 H2 H3 H4 H5] Hsg Hp Hr Hsize Hfit. cbn in *.
  split; cbn; auto.
  - by rewrite lookup_insert_ne.
  - intros sg' p' Hl Hp'. destruct (decide (p' = p)) as [->|Hne].
    + exists obj. rewrite lookup_insert_eq, Hsize. split; [done|lia].
    + rewrite lookup_insert_ne by done. eauto.
  - intros p' b Hl. destruct (decide (p' = p)) as [->|Hne]; [eauto|].
    rewrite lookup_insert_ne in Hl by done. eauto.
  - rewrite map_size_insert_Some by eauto. done.
Qed.

Lemma wf_eta (st : state) :
  wf st -> wf (State (heap st) (signals st) (alloc_log st) (calls st) (destroyed st)).
Proof. by destruct st. Qed.

(** A signal without handler goes away. *)
Lemma wf_remove h s l c d d' (sg : positive) :
  wf (State h s l c d) -> s !! sg = Some null ->
  wf (State h (delete sg s) l c d').
Proof.
  intros [H1 H2 H3 H4 H5] Hsg. cbn in *. split; cbn; auto.
  - intros sg' p' Hl Hp'. apply lookup_delete_Some in Hl as [_ Hl]. eauto.
  - intros p' b Hl. destruct (H3 _ _ Hl) as [sg' Hsg']. exists sg'.
    rewrite lookup_delete_ne; [done|]. intros ->.
    rewrite Hsg in Hsg'. injection Hsg' as <-. congruence.
  - intros sg1 sg2 p' Hl1 Hl2 Hp'.
    apply lookup_delete_Some in Hl1 as [_ Hl1].
    apply lookup_delete_Some in Hl2 as [_ Hl2]. eauto.
Qed.

(** A signal is constructed at a free location. *)
Lemma wf_add h s l c d d' (sg : positive) :
  wf (State h s l c d) -> s !! sg = None ->
  wf (State h (<[sg := null]> s) l c d').
Proof.
  intros [H1 H2 H3 H4 H5] Hsg. cbn in *.
  assert (forall sg' p', <[sg := null]> s !! sg' = Some p' -> p' <> null ->
            s !! sg' = Some p') as Hother.
  { intros sg' p' Hl Hp'. destruct (decide (sg' = sg)) as [->|Hne].
    - rewrite lookup_insert_eq in Hl. congruence.
    - by rewrite lookup_insert_ne in Hl. }
  split; cbn; eauto.
  intros p' b Hl. destruct (H3 _ _ Hl) as [sg' Hsg']. exists sg'.
  rewrite lookup_insert_ne; [done|]. congruence.
Qed.

Lemma constructor_of_return (T : realization)
    (ctor : N -> outcome cancellation_handler_base) (sz : N)
    (obj : cancellation_handler_base) :
  constructor_of T ctor -> ctor sz = Return obj ->
  dynamic_type obj = T /\ size_ obj = sz.
Proof.
  intros Hctor Hobj. destruct (Hctor sz) as [[e He]|[obj' (Ho & Hd & Hs)]].
  - congruence.
  - rewrite Hobj in Ho. injection Ho as ->. done.
Qed.

Lemma wf_installed_size (st : state) (sg : positive) (p : N) :
  wf st -> signals st !! sg = Some p -> p <> null ->
  exists r, heap st !! p = Some (Block (size_ r) (Some r))
            /\ installed_size st p = size_ r
            /\ sizeof (dynamic_type r) <= size_ r.
Proof.
  intros Hwf Hsg Hp. destruct (wf_installed _ Hwf _ _ Hsg Hp) as (r & Hr & Hfit).
  exists r. by rewrite (installed_size_live _ _ _ _ Hr).
Qed.

(** Every path of [emplace] keeps the invariant. *)
Lemma emplace_result_wf (sg : positive) (T : realization)
    (ctor : N -> outcome cancellation_handler_base) (st st' : state) (p : N)
    (res : outcome N) :
  allocator_ok -> constructor_of T ctor ->
  wf st -> signals st !! sg = Some p ->
  emplace_result sg T ctor st p st' res -> wf st'.
Proof.
  intros Hok Hctor Hwf Hsg Hres.
  pose proof (wf_eta _ Hwf) as Hwf'.
  pose proof (wf_release _ _ _ _ _ (surrendered st p) _ _ Hwf' Hsg) as Hrel.
  destruct Hres as [obj Hp Hle Hobj|e Hp Hle He|q obj Hlt Halloc Hobj
                   |Hlt Halloc|q e Hlt Halloc He|Hp Hz]; auto.
  - destruct (wf_installed_size _ _ _ Hwf Hsg Hp) as (r & Hr & Hsize & Hfit).
    rewrite Hsize in *.
    destruct (constructor_of_return _ _ _ _ Hctor Hobj) as [Hd Hs].
    eapply wf_replace; eauto. rewrite Hd. done.
  - destruct (Hok _ _ _ Halloc) as [Hq Hfresh].
    destruct (constructor_of_return _ _ _ _ Hctor Hobj) as [Hd Hs].
    rewrite <- (insert_insert_eq (signals st) sg q null).
    change [ev_delete p; ev_new (sizeof T) (Some q)]
      with ([ev_delete p] ++ [ev_new (sizeof T) (Some q)]).
    rewrite app_assoc.
    eapply wf_install; eauto.
    + apply lookup_insert_eq.
    + rewrite Hd. done.
  - change [ev_delete p; ev_new (sizeof T) None]
      with ([ev_delete p] ++ [ev_new (sizeof T) None]).
    rewrite app_assoc. eapply wf_log; [exact Hrel|done].
  - destruct (Hok _ _ _ Halloc) as [Hq Hfresh].
    change [ev_delete p; ev_new (sizeof T) (Some q); ev_delete q]
      with ([ev_delete p] ++ [ev_new (sizeof T) (Some q); ev_delete q]).
    rewrite app_assoc. eapply wf_log; [exact Hrel|].
    cbn. by rewrite (eqb_null_false _ Hq).
Qed.

(** ** Slots that are not connected to a live signal *)

Lemma emplace_with_disconnected (T : realization)
    (ctor : N -> outcome cancellation_handler_base) (st : state) :
  emplace_with cancellation_slot_default T ctor st =
    (st, if NDEBUG then Undefined else AssertFail).
Proof.
  unfold emplace_with, bind, assert_. cbn.
  by destruct NDEBUG.
Qed.

Lemma emplace_with_dangling (sg : positive) (T : realization)
    (ctor : N -> outcome cancellation_handler_base) (st : state) :
  signals st !! sg = None ->
  emplace_with (slot sg) T ctor st = (st, Undefined).
Proof.
  intros Hsg. unfold emplace_with. cbn [slot handler_ negb N.eqb null].
  rewrite (bind_return _ _ _ _ _ (assert_true st)).
  unfold bind, surrender_phase, bind. cbn. unfold load_signal. by rewrite Hsg.
Qed.

Lemma clear_disconnected (st : state) :
  clear cancellation_slot_default st = (st, Return tt).
Proof. reflexivity. Qed.

Lemma clear_dangling (sg : positive) (st : state) :
  signals st !! sg = None -> clear (slot sg) st = (st, Undefined).
Proof.
  intros Hsg. unfold clear, bind. cbn. unfold load_signal. by rewrite Hsg.
Qed.

Lemma slot_cases (s : cancellation_slot) :
  s = cancellation_slot_default \/ exists sg, s = slot sg.
Proof. destruct s as [[|sg]]; [by left|right; by exists sg]. Qed.

(** ** Every operation keeps the invariant *)

Lemma emplace_with_wf (s : cancellation_slot) (T : realization)
    (ctor : N -> outcome cancellation_handler_base) (st : state) :
  allocator_ok -> constructor_of T ctor -> wf st ->
  wf (emplace_with s T ctor st).1.
Proof.
  intros Hok Hctor Hwf. destruct (slot_cases s) as [->|[sg ->]].
  - by rewrite emplace_with_disconnected.
  - destruct (signals st !! sg) as [p|] eqn:Hsg.
    + destruct (emplace_with_spec sg T ctor st p) as (st' & res & -> & Hres);
        auto.
      * apply Hwf.
      * intros Hp. destruct (wf_installed _ Hwf _ _ Hsg Hp) as (r & Hr & _).
        eauto.
      * cbn. eapply emplace_result_wf; eauto.
    + by rewrite emplace_with_dangling.
Qed.

Lemma clear_wf (s : cancellation_slot) (st : state) :
  wf st -> wf (clear s st).1.
Proof.
  intros Hwf. destruct (slot_cases s) as [->|[sg ->]]; [done|].
  destruct (signals st !! sg) as [p|] eqn:Hsg.
  - destruct (N.eq_dec p null) as [->|Hp].
    + by rewrite clear_empty.
    + destruct (wf_installed _ Hwf _ _ Hsg Hp) as (r & Hr & _).
      rewrite (clear_installed _ _ _ _ _ Hsg Hp Hr). cbn.
      eapply wf_release; [by apply wf_eta|done].
  - by rewrite clear_dangling.
Qed.

(** ** The signal: destructor and emit, case by case *)

Lemma dtor_installed (sg : positive) (p cap : N) (r : cancellation_handler_base)
    (st : state) :
  signals st !! sg = Some p -> p <> null ->
  heap st !! p = Some (Block cap (Some r)) ->
  cancellation_signal_dtor sg st =
    (State (delete p (heap st)) (delete sg (signals st))
           (alloc_log st ++ [ev_delete p]) (calls st)
           (destroyed st ++ [(p, r)]), Return tt).
Proof.
  intros Hsg Hp Hheap. unfold cancellation_signal_dtor, bind.
  rewrite (load_signal_live _ _ _ Hsg), (eqb_null_false _ Hp).
  rewrite (destroy_live _ _ _ _ Hheap). cbn.
  erewrite operator_delete_live; [|done|cbn; apply lookup_insert_eq].
  unfold set_signals, log_alloc, set_heap. cbn.
  by rewrite delete_insert_eq.
Qed.

Lemma dtor_empty (sg : positive) (st : state) :
  signals st !! sg = Some null ->
  cancellation_signal_dtor sg st =
    (State (heap st) (delete sg (signals st)) (alloc_log st) (calls st)
           (destroyed st), Return tt).
Proof.
  intros Hsg. unfold cancellation_signal_dtor, bind.
  by rewrite (load_signal_live _ _ _ Hsg).
Qed.

Lemma dtor_dangling (sg : positive) (st : state) :
  signals st !! sg = None -> cancellation_signal_dtor sg st = (st, Undefined).
Proof.
  intros Hsg. unfold cancellation_signal_dtor, bind, load_signal.
  by rewrite Hsg.
Qed.

Lemma emit_context (sg : positive) (p cap sz : N) (T : realization)
    (h : Handler) (c : ContextT) (st : state) :
  signals st !! sg = Some p -> p <> null ->
  heap st !! p = Some (Block cap (Some (cancellation_handler T h c sz))) ->
  emit sg st =
    (State (<[p := Block cap (Some (cancellation_handler T h (handler_call h c).1 sz))]>
              (heap st))
           (signals st) (alloc_log st) (calls st ++ [(h, Some p)])
           (destroyed st),
     thrown (handler_call h c).2).
Proof.
  intros Hsg Hp Hheap. unfold emit, bind.
  rewrite (load_signal_live _ _ _ Hsg), (eqb_null_false _ Hp).
  unfold call. rewrite Hheap.
  by destruct (handler_call h c) as [c' [e|]].
Qed.

Lemma emit_void (sg : positive) (p cap sz : N) (T : realization)
    (h : Handler) (st : state) :
  signals st !! sg = Some p -> p <> null ->
  heap st !! p = Some (Block cap (Some (cancellation_handler_void T h sz))) ->
  emit sg st =
    (State (heap st) (signals st) (alloc_log st) (calls st ++ [(h, None)])
           (destroyed st),
     thrown (handler_call_void h)).
Proof.
  intros Hsg Hp Hheap. unfold emit, bind.
  rewrite (load_signal_live _ _ _ Hsg), (eqb_null_false _ Hp).
  unfold call. rewrite Hheap.
  by destruct (handler_call_void h).
Qed.

Lemma emit_dangling (sg : positive) (st : state) :
  signals st !! sg = None -> emit sg st = (st, Undefined).
Proof.
  intros Hsg. unfold emit, bind, load_signal. by rewrite Hsg.
Qed.

Lemma ctor_wf (sg : positive) (st : state) :
  wf st -> wf (cancellation_signal_ctor sg st).1.
Proof.
  intros Hwf. unfold cancellation_signal_ctor.
  destruct (signals st !! sg) eqn:Hsg; [done|].
  cbn. eapply wf_add; [by apply wf_eta|done].
Qed.

Lemma dtor_wf (sg : positive) (st : state) :
  wf st -> wf (cancellation_signal_dtor sg st).1.
Proof.
  intros Hwf. destruct (signals st !! sg) as [p|] eqn:Hsg.
  - destruct (N.eq_dec p null) as [->|Hp].
    + rewrite (dtor_empty _ _ Hsg). cbn.
      eapply wf_remove; [by apply wf_eta|done].
    + destruct (wf_installed _ Hwf _ _ Hsg Hp) as (r & Hr & _).
      rewrite (dtor_installed _ _ _ _ _ Hsg Hp Hr). cbn.
      rewrite <- (delete_insert_eq (signals st) sg null).
      eapply (wf_remove _ _ _ _ (destroyed st)); [|apply lookup_insert_eq].
      eapply wf_release; [by apply wf_eta|done].
  - by rewrite dtor_dangling.
Qed.

Lemma emit_wf (sg : positive) (st : state) :
  wf st -> wf (emit sg st).1.
Proof.
  intros Hwf. destruct (signals st !! sg) as [p|] eqn:Hsg.
  - destruct (N.eq_dec p null) as [->|Hp].
    + by rewrite emit_empty.
    + destruct (wf_installed _ Hwf _ _ Hsg Hp) as (r & Hr & Hfit).
      destruct r as [T h c sz|T h sz]; cbn in Hr, Hfit.
      * rewrite (emit_context _ _ _ _ _ _ _ _ Hsg Hp Hr). cbn.
        rewrite <- (app_nil_r (alloc_log st)).
        eapply wf_log; [|done].
        eapply (wf_replace _ _ _ _ _ (destroyed st) sg p
                  (cancellation_handler T h c sz));
          eauto. by apply wf_eta.
      * rewrite (emit_void _ _ _ _ _ _ _ Hsg Hp Hr). cbn.
        rewrite <- (app_nil_r (alloc_log st)).
        eapply wf_log; [by apply wf_eta|done].
  - by rewrite emit_dangling.
Qed.

(** The invariant holds after every operation, whatever its outcome. *)
Lemma run_op_wf (o : op) (st : state) :
  allocator_ok -> wf st -> wf (run_op o st).1.
Proof.
  intros Hok Hwf. destruct o as [sg|sg|sg|s T h args|s T h|s]; cbn.
  - by apply ctor_wf.
  - by apply dtor_wf.
  - by apply emit_wf.
  - pose proof (emplace_with_wf s T _ st Hok
                  (construct_is_constructor T h args) Hwf) as H.
    unfold bind. rewrite emplace_eq.
    by destruct (emplace_with _ _ _ st) as [st' [a|e| |]].
  - pose proof (emplace_with_wf s T _ st Hok
                  (construct_void_is_constructor T h) Hwf) as H.
    rewrite emplace_void_eq. unfold void.
    by destruct (emplace_with _ _ _ st) as [st' [a|e| |]].
  - by apply clear_wf.
Qed.

Lemma run_wf (ops : list op) (st : state) :
  allocator_ok -> wf st -> wf (run ops st).
Proof.
  intros Hok. revert st. induction ops as [|o ops IH]; intros st Hwf; [done|].
  cbn. pose proof (run_op_wf o st Hok Hwf) as H.
  destruct (run_op o st) as [st' [[]|e| |]]; cbn in H; auto.
Qed.

(** Every state a program reaches from the initial one satisfies the
    invariant. *)
Lemma reachable_wf (ops : list op) : allocator_ok -> wf (run ops init).
Proof. intros Hok. apply run_wf; [done|apply wf_init]. Qed.

(** ** The log agrees with the free store

    This property only depends on what the allocation functions do, so it
    is shown for them and carried through every computation built from
    them. *)

Lemma last_allocation_snoc (p : N) (l : list alloc_event) (e : alloc_event) :
  last_allocation p (l ++ [e]) = track p (last_allocation p l) e.
Proof. unfold last_allocation. by rewrite fold_left_app. Qed.

Lemma preserves_ret {A} (I : state -> Prop) (a : A) : preserves I (ret a).
Proof. by intros st. Qed.

Lemma preserves_throw {A} (I : state -> Prop) (e : exception) :
  preserves I (throw (A := A) e).
Proof. by intros st. Qed.

Lemma preserves_bind {A B} (I : state -> Prop) (m : M A) (k : A -> M B) :
  preserves I m -> (forall a, preserves I (k a)) -> preserves I (bind m k).
Proof.
  intros Hm Hk st HI. unfold bind. specialize (Hm st HI).
  destruct (m st) as [st1 [a|e| |]]; cbn in *; auto. by apply Hk.
Qed.

Lemma preserves_try_catch {A} (I : state -> Prop) (m : M A)
    (h : exception -> M A) :
  preserves I m -> (forall e, preserves I (h e)) -> preserves I (try_catch m h).
Proof.
  intros Hm Hh st HI. unfold try_catch. specialize (Hm st HI).
  destruct (m st) as [st1 [a|e| |]]; cbn in *; auto. by apply Hh.
Qed.

Lemma preserves_void {A} (I : state -> Prop) (m : M A) :
  preserves I m -> preserves I (void m).
Proof.
  intros Hm st HI. unfold void. specialize (Hm st HI).
  by destruct (m st) as [st1 [a|e| |]].
Qed.

(** Changes of the state that keep the log, the set of live blocks and
    their capacities. *)
Lemma log_agrees_same_blocks (st st' : state) :
  alloc_log st' = alloc_log st ->
  (forall p, capacity <$> heap st' !! p = capacity <$> heap st !! p) ->
  log_agrees st -> log_agrees st'.
Proof.
  intros Hlog Hsame [H1 H2 H3]. split; rewrite Hlog; auto.
  - intros p b Hb. specialize (Hsame p). rewrite Hb in Hsame.
    destruct (heap st !! p) as [b0|] eqn:Hb0; [|discriminate].
    injection Hsame as ->. eauto.
  - intros p sz n Hp. apply H3. specialize (Hsame p). rewrite Hp in Hsame.
    by destruct (heap st !! p).
Qed.

Lemma log_agrees_update (p : N) (b b' : block) (st : state) :
  heap st !! p = Some b -> capacity b' = capacity b ->
  log_agrees st -> log_agrees (set_heap (insert p b') st).
Proof.
  intros Hb Hcap. apply log_agrees_same_blocks; [done|]. intros q. cbn.
  destruct (decide (p = q)) as [<-|Hne].
  - rewrite lookup_insert_eq, Hb. cbn. by rewrite Hcap.
  - by rewrite lookup_insert_ne.
Qed.

Lemma log_agrees_null_dead (st : state) :
  log_agrees st -> heap st !! null = None.
Proof.
  intros [H1 H2 H3]. destruct (heap st !! null) as [b|] eqn:Hb; [|done].
  rewrite (H2 _ _ Hb) in H1. discriminate.
Qed.

Lemma preserves_assert (I : state -> Prop) (b : bool) : preserves I (assert_ b).
Proof. intros st HI. unfold assert_. by destruct NDEBUG, b. Qed.

Lemma preserves_operator_new (sz : N) :
  allocator_ok -> preserves log_agrees (operator_new sz).
Proof.
  intros Hok st Hla. pose proof Hla as [H1 H2 H3]. unfold operator_new.
  destruct (allocate (heap st) sz) as [q|] eqn:Halloc; cbn.
  - destruct (Hok _ _ _ Halloc) as [Hq Hfresh]. split; cbn.
    + rewrite last_allocation_snoc. cbn [track].
      by rewrite (eqb_null_false _ Hq).
    + intros p b Hb. rewrite last_allocation_snoc. cbn [track].
      destruct (N.eqb_spec q p) as [->|Hne].
      * rewrite lookup_insert_eq in Hb. by injection Hb as <-.
      * rewrite lookup_insert_ne in Hb by done. eauto.
    + intros p sz' n Hb. rewrite last_allocation_snoc. cbn [track].
      destruct (N.eqb_spec q p) as [->|Hne].
      * by rewrite lookup_insert_eq in Hb.
      * rewrite lookup_insert_ne in Hb by done. eauto.
  - split; cbn.
    + by rewrite last_allocation_snoc.
    + intros p b Hb. rewrite last_allocation_snoc. cbn [track]. eauto.
    + intros p sz' n Hb. rewrite last_allocation_snoc. cbn [track]. eauto.
Qed.

Lemma preserves_operator_delete (p : N) : preserves log_agrees (operator_delete p).
Proof.
  intros st Hla. pose proof Hla as [H1 H2 H3].
  pose proof (log_agrees_null_dead _ Hla) as Hnull.
  unfold operator_delete. destruct (N.eqb_spec p null) as [->|Hp]; cbn.
  - split; cbn.
    + rewrite last_allocation_snoc. cbn [track]. by rewrite H1.
    + intros q b Hb. rewrite last_allocation_snoc. cbn [track].
      destruct (N.eqb_spec null q) as [<-|Hne]; [congruence|eauto].
    + intros q sz n Hb. rewrite last_allocation_snoc. cbn [track].
      destruct (N.eqb_spec null q) as [<-|Hne]; [|eauto].
      rewrite H1. discriminate.
  - destruct (heap st !! p) as [b|] eqn:Hb; [|done]. cbn. split; cbn.
    + rewrite last_allocation_snoc. cbn [track].
      by rewrite (eqb_null_false _ Hp).
    + intros q b' Hq. rewrite last_allocation_snoc. cbn [track].
      apply lookup_delete_Some in Hq as [Hne Hq].
      destruct (N.eqb_spec p q) as [->|_]; [done|eauto].
    + intros q sz n Hq. rewrite last_allocation_snoc. cbn [track].
      destruct (N.eqb_spec p q) as [<-|Hne].
      * rewrite (H2 _ _ Hb). by intros [= <- <-].
      * rewrite lookup_delete_ne in Hq by done. eauto.
Qed.

Lemma preserves_placement_new (p : N) (T : realization)
    (r : outcome cancellation_handler_base) :
  preserves log_agrees (placement_new p T r).
Proof.
  intros st Hla. unfold placement_new.
  destruct (heap st !! p) as [b|] eqn:Hb; [|done].
  destruct (sizeof T <=? capacity b); [|done].
  destruct r; cbn; auto. by apply (log_agrees_update _ b).
Qed.

Lemma preserves_destroy (p : N) : preserves log_agrees (destroy p).
Proof.
  intros st Hla. unfold destroy.
  destruct (heap st !! p) as [[cap [r|]]|] eqn:Hb; cbn; auto.
  apply (log_agrees_same_blocks (set_heap (insert p (Block cap None)) st));
    [done|done|].
  by eapply log_agrees_update.
Qed.

Lemma preserves_call (p : N) : preserves log_agrees (call p).
Proof.
  intros st Hla. unfold call.
  destruct (heap st !! p) as [[cap [[T h c sz|T h sz]|]]|] eqn:Hb; cbn; auto.
  - destruct (handler_call h c) as [c' e]. cbn.
    apply (log_agrees_same_blocks st); [done| |done]. intros q. cbn.
    destruct (decide (p = q)) as [<-|Hne].
    + by rewrite lookup_insert_eq, Hb.
    + by rewrite lookup_insert_ne.
  - by apply (log_agrees_same_blocks st).
Qed.

Lemma preserves_signals_only {A} (m : M A) :
  (forall st, heap (m st).1 = heap st /\ alloc_log (m st).1 = alloc_log st) ->
  preserves log_agrees m.
Proof.
  intros Hm st Hla. destruct (Hm st) as [Hheap Hlog].
  apply (log_agrees_same_blocks st); [done| |done].
  intros p. by rewrite Hheap.
Qed.

Lemma preserves_load_signal (sg : positive) : preserves log_agrees (load_signal sg).
Proof.
  apply preserves_signals_only. intros st. unfold load_signal.
  by destruct (signals st !! sg).
Qed.

Lemma preserves_store_signal (sg : positive) (h : N) :
  preserves log_agrees (store_signal sg h).
Proof.
  apply preserves_signals_only. intros st. unfold store_signal.
  by destruct (signals st !! sg).
Qed.

Lemma preserves_deref (pp : N) : preserves log_agrees (deref pp).
Proof. destruct pp; [by intros st|apply preserves_load_signal]. Qed.

Lemma preserves_assign (pp h : N) : preserves log_agrees (assign pp h).
Proof. destruct pp; [by intros st|apply preserves_store_signal]. Qed.

Create HintDb preserve.

#[local] Hint Resolve preserves_ret preserves_throw preserves_assert
  preserves_operator_new preserves_operator_delete preserves_placement_new
  preserves_destroy preserves_call preserves_load_signal preserves_store_signal
  preserves_deref preserves_assign : preserve.

Ltac preserve_step :=
  first
    [ apply preserves_bind; [|intros ?]
    | apply preserves_try_catch; [|intros ?]
    | apply preserves_void
    | match goal with
      | |- preserves _ (if ?b then _ else _) => destruct b
      end
    | solve [auto with preserve] ].

Lemma preserves_create_with (T : realization) (mem : N * N)
    (ctor : N -> outcome cancellation_handler_base) :
  allocator_ok -> preserves log_agrees (create_with T mem ctor).
Proof. intros Hok. unfold create_with. repeat preserve_step. Qed.

Lemma preserves_emplace_with (s : cancellation_slot) (T : realization)
    (ctor : N -> outcome cancellation_handler_base) :
  allocator_ok -> preserves log_agrees (emplace_with s T ctor).
Proof.
  intros Hok. pose proof (preserves_create_with T) as Hcreate.
  unfold emplace_with, surrender_phase. repeat preserve_step.
Qed.

Lemma preserves_clear (s : cancellation_slot) : preserves log_agrees (clear s).
Proof. unfold clear. repeat preserve_step. Qed.

Lemma preserves_emit (sg : positive) : preserves log_agrees (emit sg).
Proof. unfold emit. repeat preserve_step. Qed.

Lemma preserves_signal_ctor (sg : positive) :
  preserves log_agrees (cancellation_signal_ctor sg).
Proof.
  apply preserves_signals_only. intros st. unfold cancellation_signal_ctor.
  by destruct (signals st !! sg).
Qed.

Lemma preserves_signal_dtor (sg : positive) :
  preserves log_agrees (cancellation_signal_dtor sg).
Proof.
  unfold cancellation_signal_dtor. repeat preserve_step.
  by apply preserves_signals_only.
Qed.

Lemma preserves_run_op (o : op) :
  allocator_ok -> preserves log_agrees (run_op o).
Proof.
  intros Hok. destruct o as [sg|sg|sg|s T h args|s T h|s]; cbn.
  - apply preserves_signal_ctor.
  - apply preserves_signal_dtor.
  - apply preserves_emit.
  - intros st Hla. unfold bind. rewrite emplace_eq.
    pose proof (preserves_emplace_with s T
                  (fun sz => construct T sz h args) Hok st Hla) as H.
    by destruct (emplace_with _ _ _ st) as [st' [a|e| |]].
  - intros st Hla. rewrite emplace_void_eq.
    by apply (preserves_void _ _ (preserves_emplace_with s T _ Hok)).
  - apply preserves_clear.
Qed.

Lemma log_agrees_init : log_agrees init.
Proof. by split. Qed.

(** In every state a program reaches the log agrees with the free store. *)
Lemma reachable_log_agrees (ops : list op) :
  allocator_ok -> log_agrees (run ops init).
Proof.
  intros Hok. generalize log_agrees_init. generalize init.
  induction ops as [|o ops IH]; intros st Hla; [done|].
  cbn. pose proof (preserves_run_op o Hok st Hla) as H.
  destruct (run_op o st) as [st' [[]|e| |]]; cbn in H; auto.
Qed.

(** ** emplace on the slot of a live signal *)

Lemma emplace_inv (sg : positive) (T : realization) (h : Handler) (args : Args)
    (st st' : state) (p : N) (res : outcome N) :
  allocator_ok -> wf st -> signals st !! sg = Some p ->
  emplace (slot sg) T h args st = (st', res) ->
  emplace_result sg T (fun sz => construct T sz h args) st p st' res.
Proof.
  intros Hok Hwf Hsg Hrun. rewrite emplace_eq in Hrun.
  destruct (emplace_with_spec sg T (fun sz => construct T sz h args) st p)
    as (st1 & res1 & Hrun1 & Hres); auto.
  - apply construct_is_constructor.
  - apply Hwf.
  - intros Hp. destruct (wf_installed _ Hwf _ _ Hsg Hp) as (r & Hr & _). eauto.
  - congruence.
Qed.

Lemma emplace_void_inv (sg : positive) (T : realization) (h : Handler)
    (st st' : state) (p : N) (res : outcome unit) :
  allocator_ok -> wf st -> signals st !! sg = Some p ->
  emplace_void (slot sg) T h st = (st', res) ->
  exists res',
    emplace_result sg T (fun sz => construct_void T sz h) st p st' res'
    /\ res = match res' with
             | Return _ => Return tt
             | Throw e => Throw e
             | AssertFail => AssertFail
             | Undefined => Undefined
             end.
Proof.
  intros Hok Hwf Hsg Hrun. rewrite emplace_void_eq in Hrun.
  destruct (emplace_with_spec sg T (fun sz => construct_void T sz h) st p)
    as (st1 & res1 & Hrun1 & Hres); auto.
  - apply construct_void_is_constructor.
  - apply Hwf.
  - intros Hp. destruct (wf_installed _ Hwf _ _ Hsg Hp) as (r & Hr & _). eauto.
  - unfold void in Hrun. rewrite Hrun1 in Hrun. exists res1.
    destruct res1; injection Hrun as <- <-; auto.
Qed.

Lemma emplace_live (sg : positive) (T : realization) (h : Handler) (args : Args)
    (st st' : state) (r : N) :
  emplace (slot sg) T h args st = (st', Return r) ->
  is_Some (signals st !! sg).
Proof.
  intros Hrun. destruct (signals st !! sg) eqn:Hsg; [eauto|].
  rewrite emplace_eq, emplace_with_dangling in Hrun by done. discriminate.
Qed.

Lemma construct_return (T : realization) (sz : N) (h : Handler) (args : Args)
    (obj : cancellation_handler_base) :
  construct T sz h args = Return obj ->
  exists c, context_ctor args = inr c /\ handler_ctor h = None
            /\ obj = cancellation_handler T h c sz.
Proof.
  unfold construct. destruct (handler_ctor h); [discriminate|].
  destruct (context_ctor args) as [e|c]; [discriminate|].
  intros [= <-]. eauto.
Qed.

(** C1: after [emplace(H, args...)] through the slot of a signal has
    returned the reference [r], the signal holds the record at [r], built
    from [H] and the context constructed from [args]; one [emit()] then
    adds exactly one entry to the trace of handler calls: [H], called with
    the object at [r], the very reference [emplace] returned.  Nothing
    else happens but what [H] does to that context. *)
Theorem emplace_then_emit (sg : positive) (T : realization) (H : Handler)
    (args : Args) (st st' : state) (r : N) :
  allocator_ok -> wf st ->
  emplace (slot sg) T H args st = (st', Return r) ->
  exists c cap sz,
    context_ctor args = inr c
    /\ signals st' !! sg = Some r
    /\ heap st' !! r = Some (Block cap (Some (cancellation_handler T H c sz)))
    /\ emit sg st' =
         (State (<[r := Block cap (Some (cancellation_handler T H (handler_call H c).1 sz))]>
                   (heap st'))
                (signals st') (alloc_log st') (calls st' ++ [(H, Some r)])
                (destroyed st'),
          thrown (handler_call H c).2).
Proof.
  intros Hok Hwf Hrun.
  destruct (emplace_live _ _ _ _ _ _ _ Hrun) as [p Hsg].
  pose proof (emplace_inv _ _ _ _ _ _ _ _ Hok Hwf Hsg Hrun) as Hres.
  inversion Hres as [obj Hp Hle Hobj|? | q obj Hlt Halloc Hobj| | |]; subst.
  - destruct (construct_return _ _ _ _ _ Hobj) as (c & Hc & _ & ->).
    exists c, (installed_size st r), (installed_size st r).
    set (st1 := State _ _ _ _ _).
    assert (signals st1 !! sg = Some r) as Hsg1 by exact Hsg.
    assert (heap st1 !! r = Some
              (Block (installed_size st r)
                 (Some (cancellation_handler T H c (installed_size st r)))))
      as Hheap by (cbn; apply lookup_insert_eq).
    repeat split; auto.
    by rewrite (emit_context _ _ _ _ _ _ _ _ Hsg1 Hp Hheap).
  - destruct (construct_return _ _ _ _ _ Hobj) as (c & Hc & _ & ->).
    destruct (Hok _ _ _ Halloc) as [Hr _].
    exists c, (sizeof T), (sizeof T).
    set (st1 := State _ _ _ _ _).
    assert (signals st1 !! sg = Some r) as Hsg1 by (cbn; apply lookup_insert_eq).
    assert (heap st1 !! r = Some
              (Block (sizeof T) (Some (cancellation_handler T H c (sizeof T)))))
      as Hheap by (cbn; apply lookup_insert_eq).
    repeat split; auto.
    by rewrite (emit_context _ _ _ _ _ _ _ _ Hsg1 Hr Hheap).
Qed.

Lemma construct_void_return (T : realization) (sz : N) (h : Handler)
    (obj : cancellation_handler_base) :
  construct_void T sz h = Return obj ->
  handler_ctor h = None /\ obj = cancellation_handler_void T h sz.
Proof.
  unfold construct_void. destruct (handler_ctor h); [discriminate|].
  by intros [= <-].
Qed.

(** X1: the context-free overload.  After [emplace(handler)] through the
    slot of a live signal has returned, one [emit()] calls that handler
    once, without argument: the trace of calls grows by exactly the entry
    of the handler, nothing else changes, and the caller of [emit()] gets
    what the handler threw, if anything. *)
Lemma emplace_void_then_emit (sg : positive) (T : realization) (H : Handler)
    (st st' : state) :
  allocator_ok -> wf st -> is_Some (signals st !! sg) ->
  emplace_void (slot sg) T H st = (st', Return tt) ->
  emit sg st' =
    (State (heap st') (signals st') (alloc_log st') (calls st' ++ [(H, None)])
           (destroyed st'),
     thrown (handler_call_void H)).
Proof.
  intros Hok Hwf [p Hsg] Hrun.
  destruct (emplace_void_inv _ _ _ _ _ _ _ Hok Hwf Hsg Hrun)
    as (res' & Hres & Heq).
  inversion Hres as [obj Hp Hle Hobj|? | q obj Hlt Halloc Hobj| | |]; subst;
    try discriminate;
    destruct (construct_void_return _ _ _ _ Hobj) as (_ & ->).
  - set (st1 := State _ _ _ _ _).
    assert (signals st1 !! sg = Some p) as Hsg1 by exact Hsg.
    eapply emit_void; [exact Hsg1|exact Hp|]. cbn. apply lookup_insert_eq.
  - destruct (Hok _ _ _ Halloc) as [Hq _].
    set (st1 := State _ _ _ _ _).
    assert (signals st1 !! sg = Some q) as Hsg1 by (cbn; apply lookup_insert_eq).
    eapply emit_void; [exact Hsg1|exact Hq|]. cbn. apply lookup_insert_eq.
Qed.

(** What a returning [emplace] on a signal with an installed record does
    with the allocator, by the size the new record needs. *)
Lemma emplace_allocator_calls_aux (sg : positive) (T : realization) (H : Handler)
    (args : Args) (st st' : state) (p q cap : N) (r : cancellation_handler_base) :
  allocator_ok -> wf st ->
  signals st !! sg = Some p -> p <> null ->
  heap st !! p = Some (Block cap (Some r)) ->
  emplace (slot sg) T H args st = (st', Return q) ->
  exists obj,
    (sizeof T <= cap ->
       q = p
       /\ alloc_log st' = alloc_log st
       /\ heap st' = <[p := Block cap (Some obj)]> (heap st))
    /\ (cap < sizeof T ->
         alloc_log st' = alloc_log st ++ [ev_delete p; ev_new (sizeof T) (Some q)]
         /\ heap st' = <[q := Block (sizeof T) (Some obj)]> (delete p (heap st))).
Proof.
  intros Hok Hwf Hsg Hp Hb Hrun.
  destruct (wf_installed_size _ _ _ Hwf Hsg Hp) as (r0 & Hr & Hsize & Hfit).
  rewrite Hb in Hr. injection Hr as Hcap <-.
  pose proof (emplace_inv _ _ _ _ _ _ _ _ Hok Hwf Hsg Hrun) as Hres.
  inversion Hres as [obj _ Hle Hobj|? | q' obj Hlt Halloc Hobj| | |]; subst;
    rewrite Hsize in *; exists obj.
  - split; [done|]. intros Hlt. lia.
  - split; [|done]. intros Hle. lia.
Qed.

(** C2, as amended: for an [emplace] on the slot of a signal with an
    installed record in a block of capacity [cap], whatever its outcome.
    When the new realization needs at most [cap] bytes, [::operator new]
    is never called; the allocator is not called at all (the allocation
    log is unchanged) and the new record lies in the old block, whose
    capacity stays [cap], unless the constructor of the handler or of the
    context throws: then the only call of the allocator is the one that
    frees the old block.  When it needs more, the old block is freed
    exactly once and [::operator new] is called exactly once, for exactly
    [sizeof T] bytes: either it hands out a block, in which the new record
    lies when the call returns and which is freed again, once, when the
    constructor throws; or it throws [bad_alloc] and no block is
    obtained. *)
Theorem emplace_allocator_calls (sg : positive) (T : realization) (H : Handler)
    (args : Args) (st st' : state) (p : N) (res : outcome N) :
  allocator_ok -> wf st ->
  signals st !! sg = Some p -> p <> null ->
  emplace (slot sg) T H args st = (st', res) ->
  exists cap r,
    heap st !! p = Some (Block cap (Some r))
    /\ (sizeof T <= cap ->
          (exists obj,
             res = Return p
             /\ construct T cap H args = Return obj
             /\ alloc_log st' = alloc_log st
             /\ heap st' = <[p := Block cap (Some obj)]> (heap st))
          \/ (exists e,
                res = Throw e
                /\ construct T cap H args = Throw e
                /\ alloc_log st' = alloc_log st ++ [ev_delete p]
                /\ heap st' = delete p (heap st)))
    /\ (cap < sizeof T ->
          (exists q obj,
             res = Return q
             /\ allocate (delete p (heap st)) (sizeof T) = Some q
             /\ construct T (sizeof T) H args = Return obj
             /\ alloc_log st' =
                  alloc_log st ++ [ev_delete p; ev_new (sizeof T) (Some q)]
             /\ heap st' = <[q := Block (sizeof T) (Some obj)]> (delete p (heap st)))
          \/ (exists q e,
                res = Throw e
                /\ allocate (delete p (heap st)) (sizeof T) = Some q
                /\ construct T (sizeof T) H args = Throw e
                /\ alloc_log st' =
                     alloc_log st
                       ++ [ev_delete p; ev_new (sizeof T) (Some q); ev_delete q]
                /\ heap st' = delete p (heap st))
          \/ (res = Throw bad_alloc
              /\ allocate (delete p (heap st)) (sizeof T) = None
              /\ alloc_log st' =
                   alloc_log st ++ [ev_delete p; ev_new (sizeof T) None]
              /\ heap st' = delete p (heap st))).
Proof.
  intros Hok Hwf Hsg Hp Hrun.
  destruct (wf_installed_size _ _ _ Hwf Hsg Hp) as (r & Hr & Hsize & _).
  pose proof (emplace_inv _ _ _ _ _ _ _ _ Hok Hwf Hsg Hrun) as Hres.
  exists (size_ r), r. split; [done|].
  inversion Hres as [obj _ Hle Hobj|e _ Hle He|q obj Hlt Halloc Hobj
                    |Hlt Halloc|q e Hlt Halloc He|Hnull _]; subst;
    rewrite ?Hsize in *; try done.
  - split; [|intros; lia]. intros _. left. by exists obj.
  - split; [|intros; lia]. intros _. right. by exists e.
  - split; [intros; lia|]. intros _. left. by exists q, obj.
  - split; [intros; lia|]. intros _. right. by right.
  - split; [intros; lia|]. intros _. right. left. by exists q, e.
Qed.

(** X7: a sequence of replacements, of any length and in any order of
    sizes, none of which needs more than the capacity of the installed
    block: the allocator is never called, and the record stays in the
    same block, whose capacity does not change, so that a small record
    does not make the block unfit for a larger one that follows. *)
Lemma repeated_emplace_no_allocation (sg : positive) (p cap : N)
    (reqs : list (realization * Handler * Args)) :
  allocator_ok ->
  Forall (fun req => sizeof req.1.1 <= cap) reqs ->
  forall (st st' : state) (r : cancellation_handler_base),
    wf st -> signals st !! sg = Some p -> p <> null ->
    heap st !! p = Some (Block cap (Some r)) ->
    emplace_each (slot sg) reqs st = Some st' ->
    alloc_log st' = alloc_log st
    /\ signals st' !! sg = Some p
    /\ exists r', heap st' !! p = Some (Block cap (Some r')).
Proof.
  intros Hok Hall. induction Hall as [|[[T h] args] reqs Hle _ IH];
    intros st st' r Hwf Hsg Hp Hr Hrun; cbn in *.
  - injection Hrun as <-. eauto.
  - destruct (emplace (slot sg) T h args st) as [st1 [q| | |]] eqn:Hstep;
      try discriminate.
    destruct (emplace_allocator_calls_aux sg T h args st st1 p q cap r
                Hok Hwf Hsg Hp Hr Hstep) as (obj & Hreuse & _).
    destruct (Hreuse Hle) as (-> & Hlog & Hheap).
    assert (wf st1) as Hwf1.
    { pose proof (run_op_wf (op_emplace (slot sg) T h args) st Hok Hwf) as H.
      cbn in H. unfold bind in H. by rewrite Hstep in H. }
    assert (signals st1 !! sg = Some p) as Hsg1.
    { pose proof (emplace_inv _ _ _ _ _ _ _ _ Hok Hwf Hsg Hstep) as Hres.
      inversion Hres; subst; try done.
      destruct (wf_installed_size _ _ _ Hwf Hsg Hp) as (r0 & Hr0 & Hsize & _).
      rewrite Hr in Hr0. injection Hr0 as Hcap _. lia. }
    assert (heap st1 !! p = Some (Block cap (Some obj))) as Hr1
      by (rewrite Hheap; apply lookup_insert_eq).
    destruct (IH st1 st' obj Hwf1 Hsg1 Hp Hr1 Hrun) as (Hlog' & Hsg' & Hr').
    split; [congruence|]. split; [done|]. done.
Qed.

(** X2: the context-free overload recycles the block like the other one:
    a returning [emplace(handler)] on a signal with an installed record
    calls no allocation function when the new record fits the block, and
    otherwise frees the old block once and obtains one block of exactly
    the size of the new record. *)
Lemma emplace_void_allocator_calls (sg : positive) (T : realization)
    (H : Handler) (st st' : state) (p : N) :
  allocator_ok -> wf st ->
  signals st !! sg = Some p -> p <> null ->
  emplace_void (slot sg) T H st = (st', Return tt) ->
  exists cap r obj q,
    heap st !! p = Some (Block cap (Some r))
    /\ signals st' !! sg = Some q
    /\ (sizeof T <= cap ->
          q = p
          /\ alloc_log st' = alloc_log st
          /\ heap st' = <[p := Block cap (Some obj)]> (heap st))
    /\ (cap < sizeof T ->
          alloc_log st' = alloc_log st ++ [ev_delete p; ev_new (sizeof T) (Some q)]
          /\ heap st' = <[q := Block (sizeof T) (Some obj)]> (delete p (heap st))).
Proof.
  intros Hok Hwf Hsg Hp Hrun.
  destruct (wf_installed_size _ _ _ Hwf Hsg Hp) as (r & Hr & Hsize & Hfit).
  destruct (emplace_void_inv _ _ _ _ _ _ _ Hok Hwf Hsg Hrun)
    as (res' & Hres & Heq).
  inversion Hres as [obj _ Hle Hobj|? | q' obj Hlt Halloc Hobj| | |]; subst;
    try discriminate; rewrite Hsize in *.
  - exists (size_ r), r, obj, p. cbn.
    split; [done|]. split; [done|]. split; [done|]. intros Hlt. lia.
  - exists (size_ r), r, obj, q'. cbn. rewrite lookup_insert_eq.
    split; [done|]. split; [done|]. split; [|done]. intros Hle. lia.
Qed.

(** What a failing constructor does to the allocation log when the old
    block would have been large enough: the block is freed. *)
Lemma emplace_reuse_failure (sg : positive) (T : realization) (H : Handler)
    (args : Args) (st : state) (p : N) (e : exception) :
  allocator_ok -> wf st ->
  signals st !! sg = Some p -> p <> null ->
  sizeof T <= installed_size st p ->
  construct T (installed_size st p) H args = Throw e ->
  emplace (slot sg) T H args st =
    (State (delete p (heap st)) (<[sg := null]> (signals st))
           (alloc_log st ++ [ev_delete p]) (calls st) (surrendered st p),
     Throw e).
Proof.
  intros Hok Hwf Hsg Hp Hle He.
  destruct (emplace (slot sg) T H args st) as [st' res] eqn:Hrun.
  pose proof (emplace_inv _ _ _ _ _ _ _ _ Hok Hwf Hsg Hrun) as Hres.
  inversion Hres; subst; try lia; try congruence.
Qed.


(** When [emplace] fails.  The constructor of the handler or of the context
    throws: so does [emplace]. *)
Lemma emplace_throws_when_constructor_throws (sg : positive) (T : realization)
    (H : Handler) (args : Args) (st : state) (p : N) (e : exception) :
  allocator_ok -> wf st ->
  signals st !! sg = Some p -> 0 < sizeof T ->
  (forall sz, construct T sz H args = Throw e) ->
  exists st' e', emplace (slot sg) T H args st = (st', Throw e').
Proof.
  intros Hok Hwf Hsg Hpos He.
  destruct (emplace (slot sg) T H args st) as [st' res] eqn:Hrun.
  pose proof (emplace_inv _ _ _ _ _ _ _ _ Hok Hwf Hsg Hrun) as Hres.
  inversion Hres; subst; eauto; try congruence; lia.
Qed.

(** The block is too small and the allocator is exhausted: [emplace] throws
    [bad_alloc]. *)
Lemma emplace_throws_when_allocation_fails (sg : positive) (T : realization)
    (H : Handler) (args : Args) (st : state) (p : N) :
  allocator_ok -> wf st ->
  signals st !! sg = Some p ->
  installed_size st p < sizeof T ->
  allocate (delete p (heap st)) (sizeof T) = None ->
  exists st', emplace (slot sg) T H args st = (st', Throw bad_alloc).
Proof.
  intros Hok Hwf Hsg Hlt Halloc.
  destruct (emplace (slot sg) T H args st) as [st' res] eqn:Hrun.
  pose proof (emplace_inv _ _ _ _ _ _ _ _ Hok Hwf Hsg Hrun) as Hres.
  inversion Hres; subst; eauto; try congruence; lia.
Qed.

(** Otherwise it returns: enough memory and constructors that do not
    throw. *)
Lemma emplace_returns (sg : positive) (T : realization) (H : Handler)
    (args : Args) (st : state) (p : N) (c : ContextT) :
  allocator_ok -> wf st ->
  signals st !! sg = Some p -> 0 < sizeof T ->
  handler_ctor H = None -> context_ctor args = inr c ->
  (installed_size st p < sizeof T ->
   is_Some (allocate (delete p (heap st)) (sizeof T))) ->
  exists st' r, emplace (slot sg) T H args st = (st', Return r).
Proof.
  intros Hok Hwf Hsg Hpos Hh Hc Halloc.
  assert (forall sz e, construct T sz H args <> Throw e) as Hno.
  { intros sz e. unfold construct. by rewrite Hh, Hc. }
  destruct (emplace (slot sg) T H args st) as [st' res] eqn:Hrun.
  pose proof (emplace_inv _ _ _ _ _ _ _ _ Hok Hwf Hsg Hrun) as Hres.
  inversion Hres as [| e ? ? He| |Hlt Hnone|q e ? ? He|]; subst; eauto.
  - by destruct (Hno _ _ He).
  - destruct (Halloc Hlt) as [q Hq]. congruence.
  - by destruct (Hno _ _ He).
  - lia.
Qed.

(** ** Disconnected slots *)

(** C5, as amended: on a default-constructed slot [emplace], in either
    overload, never returns: its [assert(handler_)] fails when assertions
    are compiled in, and without them the null [handler_] is dereferenced,
    which is undefined behaviour; the state is untouched.  [clear] on such
    a slot is guarded by [handler_ != 0]: it returns normally and changes
    nothing. *)
Theorem disconnected_slot_operations (T : realization) (H : Handler)
    (args : Args) (st : state) :
  emplace cancellation_slot_default T H args st =
    (st, if NDEBUG then Undefined else AssertFail)
  /\ emplace_void cancellation_slot_default T H st =
       (st, if NDEBUG then Undefined else AssertFail)
  /\ clear cancellation_slot_default st = (st, Return tt).
Proof.
  split; [|split].
  - by rewrite emplace_eq, emplace_with_disconnected.
  - rewrite emplace_void_eq. unfold void.
    rewrite emplace_with_disconnected. by destruct NDEBUG.
  - apply clear_disconnected.
Qed.

(** ** clear on the slot of a live signal *)

(** C6: after [clear()] on a connected slot has returned, the slot is
    still connected, it has no handler, and an [emit()] on its signal
    changes nothing; [clear()] on a slot whose signal has no handler
    changes nothing either; and on the slot of a live signal [clear()]
    does return. *)
Theorem clear_postcondition (sg : positive) (st : state) :
  (forall st', clear (slot sg) st = (st', Return tt) ->
     is_connected (slot sg) = true
     /\ has_handler (slot sg) st' = (st', Return false)
     /\ emit sg st' = (st', Return tt)
     /\ clear (slot sg) st' = (st', Return tt))
  /\ (signals st !! sg = Some null -> clear (slot sg) st = (st, Return tt))
  /\ (wf st -> is_Some (signals st !! sg) ->
       exists st', clear (slot sg) st = (st', Return tt)).
Proof.
  split; [|split].
  - intros st' Hclear. pose proof (clear_returns_empty _ _ _ Hclear) as Hsg.
    split; [done|]. split; [by apply has_handler_empty|].
    split; [by apply emit_empty|by apply clear_empty].
  - apply clear_empty.
  - intros Hwf [p Hsg]. destruct (N.eq_dec p null) as [->|Hp].
    + exists st. by apply clear_empty.
    + destruct (wf_installed _ Hwf _ _ Hsg Hp) as (r & Hr & _).
      eexists. by apply (clear_installed _ _ _ _ _ Hsg Hp Hr).
Qed.

(** ** Destruction of a signal *)

Lemma no_handlers_no_blocks (st : state) :
  wf st ->
  (forall sg p, signals st !! sg = Some p -> p = null) ->
  heap st = ∅.
Proof.
  intros Hwf Hnone. apply map_empty. intros p.
  destruct (heap st !! p) as [b|] eqn:Hb; [|done].
  destruct (wf_owned _ Hwf _ _ Hb) as [sg Hsg].
  rewrite (Hnone _ _ Hsg) in Hb. rewrite (wf_null _ Hwf) in Hb. discriminate.
Qed.

(** C7: destroying a signal with an installed record returns normally,
    surrenders the record and calls the allocator exactly once, to free
    the block of the record.  The destructor of the installed record, and
    of no other, runs, once.  The block was live, obtained with the size
    the record stores and never given back; afterwards it is not live and
    was given back exactly once.  The number of frees goes up
    by one, nothing is allocated.  When no other signal holds a handler,
    no block is live afterwards and the harness has counted as many
    allocations as frees. *)
Theorem signal_dtor_frees_once (sg : positive) (p : N) (st : state) :
  wf st -> log_agrees st ->
  signals st !! sg = Some p -> p <> null ->
  exists st' r,
    cancellation_signal_dtor sg st = (st', Return tt)
    /\ heap st !! p = Some (Block (size_ r) (Some r))
    /\ destroyed st' = destroyed st ++ [(p, r)]
    /\ alloc_log st' = alloc_log st ++ [ev_delete p]
    /\ is_Some (heap st !! p)
    /\ last_allocation p (alloc_log st) = Some (installed_size st p, 0%nat)
    /\ heap st' = delete p (heap st)
    /\ last_allocation p (alloc_log st') = Some (installed_size st p, 1%nat)
    /\ signals st' = delete sg (signals st)
    /\ count_frees (alloc_log st') = S (count_frees (alloc_log st))
    /\ count_allocs (alloc_log st') = count_allocs (alloc_log st)
    /\ ((forall sg' q, sg' <> sg -> signals st !! sg' = Some q -> q = null) ->
        heap st' = ∅
        /\ count_allocs (alloc_log st') = count_frees (alloc_log st')).
Proof.
  intros Hwf Hla Hsg Hp.
  destruct (wf_installed _ Hwf _ _ Hsg Hp) as (r & Hr & _).
  pose proof (dtor_wf sg st Hwf) as Hwf'.
  rewrite (dtor_installed _ _ _ _ _ Hsg Hp Hr) in Hwf'. cbn in Hwf'.
  eexists _, r. split; [by apply (dtor_installed _ _ _ _ _ Hsg Hp Hr)|]. cbn.
  split; [done|]. split; [done|].
  split; [done|]. split; [eauto|].
  pose proof (la_live _ Hla _ _ Hr) as Hlive. cbn in Hlive.
  rewrite (installed_size_live _ _ _ _ Hr).
  split; [done|]. split; [done|].
  rewrite last_allocation_snoc, Hlive. cbn [track]. rewrite N.eqb_refl.
  split; [done|]. split; [done|].
  rewrite count_frees_app, count_allocs_app. cbn.
  rewrite (eqb_null_false _ Hp).
  split; [lia|]. split; [lia|].
  intros Hothers.
  assert (delete p (heap st) = ∅) as Hempty.
  { apply (no_handlers_no_blocks _ Hwf'). cbn. intros sg' q Hl.
    apply lookup_delete_Some in Hl as [Hne Hl]. eauto. }
  split; [done|].
  pose proof (wf_count _ Hwf') as Hcount. cbn in Hcount.
  rewrite Hempty, map_size_empty in Hcount.
  rewrite count_frees_app, count_allocs_app in Hcount. cbn in Hcount.
  rewrite (eqb_null_false _ Hp) in Hcount. lia.
Qed.

(** When the last signal is gone, nothing is left on the free store. *)
Lemma no_signals_no_leak (st : state) :
  wf st -> signals st = ∅ ->
  heap st = ∅ /\ count_allocs (alloc_log st) = count_frees (alloc_log st).
Proof.
  intros Hwf Hnone.
  assert (heap st = ∅) as Hempty.
  { apply (no_handlers_no_blocks _ Hwf). intros sg p.
    by rewrite Hnone, lookup_empty. }
  split; [done|]. pose proof (wf_count _ Hwf) as Hcount.
  rewrite Hempty, map_size_empty in Hcount. lia.
Qed.

(** ** Equality of slots *)

(** C8: two slots are equal exactly when their [handler_] pointers are
    the same location, and [!=] is the negation; so the slots obtained
    from one signal, by however many calls of [slot()], are equal, and
    slots of signals at different locations are not. *)
Theorem slot_equality (a b : cancellation_slot) (sg1 sg2 : positive) :
  (slot_eq a b = true <-> handler_ a = handler_ b)
  /\ slot_ne a b = negb (slot_eq a b)
  /\ slot_eq (slot sg1) (slot sg1) = true
  /\ slot_ne (slot sg1) (slot sg1) = false
  /\ slot_eq (slot sg1) (slot sg2) = bool_decide (sg1 = sg2)
  /\ slot_ne (slot sg1) (slot sg2) = negb (bool_decide (sg1 = sg2)).
Proof.
  assert (slot_eq (slot sg1) (slot sg2) = bool_decide (sg1 = sg2)) as Heq.
  { unfold slot_eq. cbn. case_bool_decide as Hd.
    - subst. apply Pos.eqb_refl.
    - by apply Pos.eqb_neq. }
  split; [apply slot_eq_spec|]. split; [done|].
  split; [apply N.eqb_refl|].
  split; [unfold slot_ne; by rewrite N.eqb_refl|].
  split; [done|]. unfold slot_ne. by rewrite <- Heq.
Qed.

(** C10: two default-constructed slots are equal and not unequal; a
    default-constructed slot is unequal to the slot of any signal, on
    either side of the comparison. *)
Theorem default_slot_equality (sg : positive) :
  slot_eq cancellation_slot_default cancellation_slot_default = true
  /\ slot_ne cancellation_slot_default cancellation_slot_default = false
  /\ slot_eq cancellation_slot_default (slot sg) = false
  /\ slot_eq (slot sg) cancellation_slot_default = false
  /\ slot_ne cancellation_slot_default (slot sg) = true
  /\ slot_ne (slot sg) cancellation_slot_default = true.
Proof. by repeat split. Qed.

(** ** The recorded size of an installed record *)

(** An [emplace] through the slot of another signal leaves the signal at
    [sg] and its block alone. *)
Lemma emplace_result_frame (sg sg' : positive) (T : realization)
    (ctor : N -> outcome cancellation_handler_base) (st st' : state)
    (p p' : N) (res : outcome N) :
  allocator_ok -> wf st ->
  signals st !! sg' = Some p' ->
  emplace_result sg' T ctor st p' st' res ->
  sg' <> sg -> signals st !! sg = Some p -> p <> null ->
  signals st' !! sg = Some p /\ heap st' !! p = heap st !! p.
Proof.
  intros Hok Hwf Hsg' Hres Hne Hsg Hp.
  assert (p' <> p) as Hpp.
  { intros ->. apply Hne. eapply wf_unique; eauto. }
  destruct (wf_installed _ Hwf _ _ Hsg Hp) as (r & Hr & _).
  destruct Hres as [obj ? ? ?|e ? ? ?|q obj Hlt Halloc Hobj
                   |Hlt Halloc|q e Hlt Halloc He|Hz Hsz]; cbn;
    rewrite ?lookup_insert_ne, ?lookup_delete_ne by done; auto.
  destruct (Hok _ _ _ Halloc) as [_ Hfresh].
  assert (q <> p) as Hqp.
  { intros ->. rewrite lookup_delete_ne in Hfresh by done. congruence. }
  by rewrite lookup_insert_ne, lookup_delete_ne by done.
Qed.

Lemma emplace_with_frame (s : cancellation_slot) (sg : positive)
    (T : realization) (ctor : N -> outcome cancellation_handler_base)
    (st : state) (p : N) :
  allocator_ok -> constructor_of T ctor -> wf st ->
  (handler_ s =? Npos sg) = false ->
  signals st !! sg = Some p -> p <> null ->
  signals (emplace_with s T ctor st).1 !! sg = Some p
  /\ heap (emplace_with s T ctor st).1 !! p = heap st !! p.
Proof.
  intros Hok Hctor Hwf Hs Hsg Hp. destruct (slot_cases s) as [->|[sg' ->]].
  - by rewrite emplace_with_disconnected.
  - assert (sg' <> sg) as Hne.
    { intros ->. cbn in Hs. by rewrite Pos.eqb_refl in Hs. }
    destruct (signals st !! sg') as [p'|] eqn:Hsg'.
    + destruct (emplace_with_spec sg' T ctor st p') as (st' & res & -> & Hres);
        auto.
      * apply Hwf.
      * intros Hp'. destruct (wf_installed _ Hwf _ _ Hsg' Hp') as (r & Hr & _).
        eauto.
      * cbn. eapply emplace_result_frame; eauto.
    + by rewrite emplace_with_dangling.
Qed.

(** No operation but those that destroy or replace the record of a signal
    changes the size that record stores, its dynamic type, its handler or
    the block it lies in. *)
Lemma run_op_keeps_record (o : op) (sg : positive) (p cap : N)
    (r : cancellation_handler_base) (st : state) :
  allocator_ok -> wf st ->
  signals st !! sg = Some p -> p <> null ->
  heap st !! p = Some (Block cap (Some r)) ->
  replaces_record o sg = false ->
  exists r',
    signals (run_op o st).1 !! sg = Some p
    /\ heap (run_op o st).1 !! p = Some (Block cap (Some r'))
    /\ size_ r' = size_ r
    /\ dynamic_type r' = dynamic_type r
    /\ stored_handler r' = stored_handler r.
Proof.
  intros Hok Hwf Hsg Hp Hr Hrep.
  assert (forall st', signals st' !! sg = Some p /\ heap st' !! p = heap st !! p ->
            exists r', signals st' !! sg = Some p
              /\ heap st' !! p = Some (Block cap (Some r'))
              /\ size_ r' = size_ r /\ dynamic_type r' = dynamic_type r
              /\ stored_handler r' = stored_handler r) as Hsame.
  { intros st' [H1 H2]. exists r. rewrite H2. auto. }
  destruct o as [sg'|sg'|sg'|s T h args|s T h|s]; cbn in Hrep |- *.
  - (* constructor of another signal *)
    apply Hsame. unfold cancellation_signal_ctor.
    destruct (signals st !! sg') eqn:Hsg'; [done|]. cbn.
    rewrite lookup_insert_ne by congruence. done.
  - (* destructor of another signal *)
    apply Hsame. apply bool_decide_eq_false in Hrep.
    destruct (signals st !! sg') as [p'|] eqn:Hsg'.
    + destruct (N.eq_dec p' null) as [->|Hp'].
      * rewrite (dtor_empty _ _ Hsg'). cbn. by rewrite lookup_delete_ne.
      * destruct (wf_installed _ Hwf _ _ Hsg' Hp') as (r2 & Hr2 & _).
        rewrite (dtor_installed _ _ _ _ _ Hsg' Hp' Hr2). cbn.
        rewrite !lookup_delete_ne; [done| |done].
        intros ->. apply Hrep. eapply wf_unique; eauto.
    + by rewrite dtor_dangling.
  - (* emit *)
    destruct (decide (sg' = sg)) as [->|Hne].
    + destruct r as [T h c sz|T h sz].
      * rewrite (emit_context _ _ _ _ _ _ _ _ Hsg Hp Hr). cbn.
        eexists. rewrite lookup_insert_eq. eauto.
      * rewrite (emit_void _ _ _ _ _ _ _ Hsg Hp Hr). cbn. eauto.
    + apply Hsame. destruct (signals st !! sg') as [p'|] eqn:Hsg'.
      * destruct (N.eq_dec p' null) as [->|Hp'].
        -- by rewrite emit_empty.
        -- destruct (wf_installed _ Hwf _ _ Hsg' Hp') as (r2 & Hr2 & _).
           assert (p' <> p) as Hpp.
           { intros ->. apply Hne. eapply wf_unique; eauto. }
           destruct r2 as [T h c sz|T h sz].
           ++ rewrite (emit_context _ _ _ _ _ _ _ _ Hsg' Hp' Hr2). cbn.
              by rewrite lookup_insert_ne.
           ++ by rewrite (emit_void _ _ _ _ _ _ _ Hsg' Hp' Hr2).
      * by rewrite emit_dangling.
  - (* emplace through a slot of another signal *)
    apply Hsame.
    pose proof (emplace_with_frame s sg T _ st p Hok
                  (construct_is_constructor T h args) Hwf Hrep Hsg Hp) as H.
    unfold bind. rewrite emplace_eq.
    by destruct (emplace_with _ _ _ st) as [st' [a|e| |]].
  - apply Hsame.
    pose proof (emplace_with_frame s sg T _ st p Hok
                  (construct_void_is_constructor T h) Hwf Hrep Hsg Hp) as H.
    rewrite emplace_void_eq. unfold void.
    by destruct (emplace_with _ _ _ st) as [st' [a|e| |]].
  - (* clear through a slot of another signal *)
    apply Hsame. destruct (slot_cases s) as [->|[sg' ->]]; [done|].
    assert (sg' <> sg) as Hne.
    { intros ->. cbn in Hrep. by rewrite Pos.eqb_refl in Hrep. }
    destruct (signals st !! sg') as [p'|] eqn:Hsg'.
    + destruct (N.eq_dec p' null) as [->|Hp'].
      * by rewrite clear_empty.
      * destruct (wf_installed _ Hwf _ _ Hsg' Hp') as (r2 & Hr2 & _).
        rewrite (clear_installed _ _ _ _ _ Hsg' Hp' Hr2). cbn.
        rewrite lookup_insert_ne, lookup_delete_ne; [done| |done].
        intros ->. apply Hne. eapply wf_unique; eauto.
    + by rewrite clear_dangling.
Qed.

(** The record [create] leaves behind when it returns. *)
Lemma construct_in_place_return (T : realization) (p1 sz : N) (h : Handler)
    (args : Args) (st1 st' : state) (p : N) :
  try_catch (placement_new p1 T (construct T sz h args))
            (fun e => operator_delete p1 ;;; throw e) st1 = (st', Return p) ->
  exists c cap,
    heap st' !! p = Some (Block cap (Some (cancellation_handler T h c sz))).
Proof.
  unfold try_catch, placement_new, bind, throw.
  destruct (heap st1 !! p1) as [b|]; [|discriminate].
  destruct (sizeof T <=? capacity b); [|discriminate].
  destruct (construct T sz h args) as [obj|e| |] eqn:Hobj; try discriminate.
  - destruct (construct_return _ _ _ _ _ Hobj) as (c & _ & _ & ->).
    intros [= <- <-]. exists c, (capacity b). cbn. apply lookup_insert_eq.
  - destruct (operator_delete p1 st1) as [st3 [[]|e'| |]]; discriminate.
Qed.

(** What [create] stores in the record: the size of the candidate block
    when that is large enough, the size of the fresh block otherwise; in
    both cases at least the size of the record. *)
Lemma create_stores_capacity (T : realization) (mem : N * N) (h : Handler)
    (args : Args) (st st' : state) (p : N) :
  create T mem h args st = (st', Return p) ->
  exists c cap,
    heap st' !! p =
      Some (Block cap (Some (cancellation_handler T h c (N.max mem.2 (sizeof T)))))
    /\ sizeof T <= N.max mem.2 (sizeof T).
Proof.
  destruct mem as [p0 sz0]. unfold create. cbn. intros Hrun.
  assert (sizeof T <= N.max sz0 (sizeof T)) as Hmax by lia.
  unfold bind in Hrun.
  destruct (N.ltb_spec sz0 (sizeof T)) as [Hlt|Hge].
  - destruct (operator_delete p0 st) as [st1 [[]|e| |]]; try discriminate.
    destruct (operator_new (sizeof T) st1) as [st2 [q|e| |]]; try discriminate.
    unfold ret in Hrun. cbn in Hrun.
    apply construct_in_place_return in Hrun as (c & cap & Hheap).
    exists c, cap. by rewrite N.max_r by lia.
  - unfold ret in Hrun. cbn in Hrun.
    apply construct_in_place_return in Hrun as (c & cap & Hheap).
    exists c, cap. by rewrite N.max_l by lia.
Qed.

(** C9: in every state a program reaches from the initial one, the record
    installed in a signal stores a size that is the capacity of the block
    it lies in, which is the size that block was obtained with from
    [::operator new], and is at least [sizeof] of the record itself;
    [destroy()] hands back exactly that capacity; and an operation that
    does not destroy or replace the record leaves the stored size, and the
    block, as they are. *)
Theorem record_size_invariant (ops : list op) (sg : positive) (p : N) :
  allocator_ok ->
  signals (run ops init) !! sg = Some p -> p <> null ->
  exists r,
    heap (run ops init) !! p = Some (Block (size_ r) (Some r))
    /\ last_allocation p (alloc_log (run ops init)) = Some (size_ r, 0%nat)
    /\ sizeof (dynamic_type r) <= size_ r
    /\ destroy p (run ops init) =
         (log_destroy (p, r)
            (set_heap (insert p (Block (size_ r) None)) (run ops init)),
          Return (p, size_ r))
    /\ forall o, replaces_record o sg = false ->
         exists r',
           signals (run_op o (run ops init)).1 !! sg = Some p
           /\ heap (run_op o (run ops init)).1 !! p = Some (Block (size_ r) (Some r'))
           /\ size_ r' = size_ r.
Proof.
  intros Hok Hsg Hp. pose proof (reachable_wf ops Hok) as Hwf.
  pose proof (reachable_log_agrees ops Hok) as Hla.
  destruct (wf_installed _ Hwf _ _ Hsg Hp) as (r & Hr & Hfit).
  exists r. split; [done|].
  split; [exact (la_live _ Hla _ _ Hr)|]. split; [done|].
  split; [by apply destroy_live|].
  intros o Hrep.
  destruct (run_op_keeps_record o sg p _ r _ Hok Hwf Hsg Hp Hr Hrep)
    as (r' & H1 & H2 & H3 & _).
  eauto.
Qed.

Lemma has_handler_live (sg : positive) (p : N) (st : state) :
  signals st !! sg = Some p ->
  has_handler (slot sg) st = (st, Return (negb (p =? null))).
Proof.
  intros Hsg. unfold has_handler, bind. cbn.
  by rewrite (load_signal_live _ _ _ Hsg).
Qed.

(** ** What emit does and does not do *)

(** X8: [emit()] never calls the allocator and never changes which record
    a signal holds: in any state, for any signal, the allocation log and
    the signals are as before, every block keeps its capacity and the
    record in it keeps its dynamic type, handler and stored size, and the
    trace of handler calls grows by at most one entry. *)
Theorem emit_only_calls_handler (sg : positive) (st : state) :
  alloc_log (emit sg st).1 = alloc_log st
  /\ signals (emit sg st).1 = signals st
  /\ (forall p, block_frame <$> heap (emit sg st).1 !! p
                = block_frame <$> heap st !! p)
  /\ (calls (emit sg st).1 = calls st
      \/ exists e, calls (emit sg st).1 = calls st ++ [e]).
Proof.
  unfold emit, bind, load_signal.
  destruct (signals st !! sg) as [p|]; [|by auto].
  destruct (p =? null); [by auto|].
  unfold call.
  destruct (heap st !! p) as [[cap [[T h c sz|T h sz]|]]|] eqn:Hb;
    try by auto.
  - destruct (handler_call h c) as [c' e]. cbn.
    split; [done|]. split; [done|]. split; [|eauto].
    intros q. destruct (decide (p = q)) as [<-|Hne].
    + by rewrite lookup_insert_eq, Hb.
    + by rewrite lookup_insert_ne.
  - cbn. eauto 6.
Qed.

(** X9: the record survives the call.  Two [emit()]s in a row call the
    installed handler twice, the second time with the context as the first
    call left it, whether or not the first call threw; the handler is still
    installed afterwards. *)
Theorem emit_twice (sg : positive) (p cap sz : N) (T : realization)
    (h : Handler) (c : ContextT) (st : state) :
  signals st !! sg = Some p -> p <> null ->
  heap st !! p = Some (Block cap (Some (cancellation_handler T h c sz))) ->
  emit sg (emit sg st).1 =
    (State (<[p := Block cap (Some (cancellation_handler T h
                       (handler_call h (handler_call h c).1).1 sz))]> (heap st))
           (signals st) (alloc_log st)
           (calls st ++ [(h, Some p); (h, Some p)]) (destroyed st),
     thrown (handler_call h (handler_call h c).1).2)
  /\ has_handler (slot sg) (emit sg (emit sg st).1).1
     = ((emit sg (emit sg st).1).1, Return true).
Proof.
  intros Hsg Hp Hb.
  rewrite (emit_context _ _ _ _ _ _ _ _ Hsg Hp Hb). cbn [fst].
  set (st1 := State _ _ _ _ _).
  assert (signals st1 !! sg = Some p) as Hsg1 by exact Hsg.
  assert (heap st1 !! p = Some (Block cap (Some
            (cancellation_handler T h (handler_call h c).1 sz)))) as Hb1
    by (cbn; apply lookup_insert_eq).
  rewrite (emit_context _ _ _ _ _ _ _ _ Hsg1 Hp Hb1). cbn.
  rewrite insert_insert_eq, <- app_assoc. split; [done|].
  set (st2 := State _ _ _ _ _).
  change (has_handler (slot sg) st2 = (st2, Return true)).
  assert (signals st2 !! sg = Some p) as Hsg2 by exact Hsg.
  by rewrite (has_handler_live _ _ _ Hsg2), (eqb_null_false _ Hp).
Qed.

(** ** Construction and destruction of a signal *)

(** X10: a signal constructed at a free location has no handler:
    [has_handler()] of its slot is false and [emit()] changes nothing; and
    destroying it right away calls no allocation function and gives back
    the state from before the construction. *)
Theorem signal_ctor_dtor_round_trip (sg : positive) (st : state) :
  signals st !! sg = None ->
  exists st1,
    cancellation_signal_ctor sg st = (st1, Return tt)
    /\ has_handler (slot sg) st1 = (st1, Return false)
    /\ emit sg st1 = (st1, Return tt)
    /\ cancellation_signal_dtor sg st1 = (st, Return tt).
Proof.
  intros Hfree. unfold cancellation_signal_ctor. rewrite Hfree.
  eexists. split; [reflexivity|].
  set (st1 := set_signals _ _).
  assert (signals st1 !! sg = Some null) as Hsg by (cbn; apply lookup_insert_eq).
  split; [by apply has_handler_empty|]. split; [by apply emit_empty|].
  rewrite (dtor_empty _ _ Hsg). cbn.
  rewrite delete_insert_eq, (delete_id _ _ Hfree). by destruct st.
Qed.

(** ** The state machine of a signal *)

(** X12: after an [emplace] of either overload has returned, the slot is
    connected and [has_handler()] is true, without changing the state. *)
Theorem has_handler_after_emplace (sg : positive) (T : realization)
    (H : Handler) (args : Args) (st st' : state) :
  allocator_ok -> wf st -> is_Some (signals st !! sg) ->
  ((exists r, emplace (slot sg) T H args st = (st', Return r))
   \/ emplace_void (slot sg) T H st = (st', Return tt)) ->
  is_connected (slot sg) = true
  /\ has_handler (slot sg) st' = (st', Return true).
Proof.
  intros Hok Hwf [p Hsg] Hrun. split; [done|].
  assert (exists ctor q, emplace_result sg T ctor st p st' (Return q))
    as (ctor & q & Hres).
  { destruct Hrun as [[r Hrun]|Hrun].
    - eexists _, r. exact (emplace_inv _ _ _ _ _ _ _ _ Hok Hwf Hsg Hrun).
    - destruct (emplace_void_inv _ _ _ _ _ _ _ Hok Hwf Hsg Hrun)
        as (res' & Hres & Heq).
      destruct res' as [q| | |]; try discriminate. eauto. }
  assert (exists q', signals st' !! sg = Some q' /\ q' <> null)
    as (q' & Hsg' & Hq').
  { inversion Hres as [obj Hp _ _|? | q0 obj _ Halloc _| | |]; subst.
    - eauto.
    - destruct (Hok _ _ _ Halloc) as [Hq _]. exists q. cbn.
      by rewrite lookup_insert_eq. }
  by rewrite (has_handler_live _ _ _ Hsg'), (eqb_null_false _ Hq').
Qed.

(** ** The capacity of the block of a signal *)

(** X15: the block of a signal never shrinks.  After a returning
    [emplace], the record lies in a block whose capacity, which is also
    the size the record stores, is the larger of the capacity from before
    (0 when no record was installed) and the size of the new record. *)
Theorem emplace_capacity_max (sg : positive) (T : realization) (H : Handler)
    (args : Args) (st st' : state) (p q : N) :
  allocator_ok -> wf st -> signals st !! sg = Some p ->
  emplace (slot sg) T H args st = (st', Return q) ->
  exists obj,
    signals st' !! sg = Some q
    /\ heap st' !! q =
         Some (Block (N.max (installed_size st p) (sizeof T)) (Some obj))
    /\ size_ obj = N.max (installed_size st p) (sizeof T)
    /\ dynamic_type obj = T.
Proof.
  intros Hok Hwf Hsg Hrun.
  pose proof (emplace_inv _ _ _ _ _ _ _ _ Hok Hwf Hsg Hrun) as Hres.
  pose proof (construct_is_constructor T H args) as Hctor.
  inversion Hres as [obj Hp Hle Hobj|? | q' obj Hlt Halloc Hobj| | |]; subst;
    destruct (constructor_of_return _ _ _ _ Hctor Hobj) as [Hd Hs];
    exists obj; cbn.
  - rewrite N.max_l by done. rewrite lookup_insert_eq. done.
  - rewrite N.max_r by lia. rewrite !lookup_insert_eq. done.
Qed.

(** X11: the first [emplace] on a signal without handler, if it returns,
    has called [::operator delete] on the null pointer and [::operator new]
    once, for exactly the size of the record; the record lies in that
    block, which was not live before, and no other block changed. *)
Theorem emplace_on_empty_signal (sg : positive) (T : realization) (H : Handler)
    (args : Args) (st st' : state) (q : N) :
  allocator_ok -> wf st -> signals st !! sg = Some null ->
  emplace (slot sg) T H args st = (st', Return q) ->
  exists c,
    context_ctor args = inr c
    /\ q <> null /\ heap st !! q = None
    /\ alloc_log st' = alloc_log st ++ [ev_delete null; ev_new (sizeof T) (Some q)]
    /\ heap st' =
         <[q := Block (sizeof T) (Some (cancellation_handler T H c (sizeof T)))]>
           (heap st)
    /\ signals st' = <[sg := q]> (signals st).
Proof.
  intros Hok Hwf Hsg Hrun.
  pose proof (emplace_inv _ _ _ _ _ _ _ _ Hok Hwf Hsg Hrun) as Hres.
  inversion Hres as [obj Hp Hle Hobj|? | q' obj Hlt Halloc Hobj| | |]; subst;
    [done|].
  destruct (construct_return _ _ _ _ _ Hobj) as (c & Hc & _ & ->).
  rewrite (delete_id _ _ (wf_null _ Hwf)) in *.
  destruct (Hok _ _ _ Halloc) as [Hq Hfresh].
  exists c. auto 10.
Qed.

(** X16: [clear()] gives the block up.  An [emplace] that follows a
    [clear()] obtains a fresh block of exactly the size of its record,
    however large the cleared block was. *)
Theorem clear_then_emplace_allocates (sg : positive) (T : realization)
    (H : Handler) (args : Args) (st st1 st2 : state) (q : N) :
  allocator_ok -> wf st ->
  clear (slot sg) st = (st1, Return tt) ->
  emplace (slot sg) T H args st1 = (st2, Return q) ->
  alloc_log st2 = alloc_log st1 ++ [ev_delete null; ev_new (sizeof T) (Some q)]
  /\ heap st1 !! q = None
  /\ exists obj, heap st2 = <[q := Block (sizeof T) (Some obj)]> (heap st1).
Proof.
  intros Hok Hwf Hclear Hrun.
  pose proof (clear_wf (slot sg) st Hwf) as Hwf1. rewrite Hclear in Hwf1.
  pose proof (clear_returns_empty _ _ _ Hclear) as Hsg1.
  pose proof (emplace_inv _ _ _ _ _ _ _ _ Hok Hwf1 Hsg1 Hrun) as Hres.
  inversion Hres as [obj Hp Hle Hobj|? | q' obj Hlt Halloc Hobj| | |]; subst;
    [done|].
  rewrite (delete_id _ _ (wf_null _ Hwf1)) in *.
  destruct (Hok _ _ _ Halloc) as [Hq Hfresh]. eauto.
Qed.

(** X17: [clear()] on a slot whose signal holds a record returns
    normally, frees the block of the record with one call of
    [::operator delete], and leaves the signal alive without handler; the
    block had been obtained and not given back, and now was given back
    exactly once; the handler is not called. *)
Theorem clear_frees_block (sg : positive) (p : N) (st : state) :
  wf st -> log_agrees st ->
  signals st !! sg = Some p -> p <> null ->
  clear (slot sg) st =
    (State (delete p (heap st)) (<[sg := null]> (signals st))
           (alloc_log st ++ [ev_delete p]) (calls st) (surrendered st p),
     Return tt)
  /\ is_Some (heap st !! p)
  /\ last_allocation p (alloc_log st) = Some (installed_size st p, 0%nat)
  /\ last_allocation p (alloc_log st ++ [ev_delete p])
     = Some (installed_size st p, 1%nat).
Proof.
  intros Hwf Hla Hsg Hp.
  destruct (wf_installed _ Hwf _ _ Hsg Hp) as (r & Hr & _).
  pose proof (la_live _ Hla _ _ Hr) as Hlive. cbn in Hlive.
  rewrite (installed_size_live _ _ _ _ Hr), (surrendered_live _ _ _ _ Hr).
  split; [by apply (clear_installed _ _ _ _ _ Hsg Hp Hr)|].
  split; [eauto|]. split; [done|].
  rewrite last_allocation_snoc, Hlive. cbn [track]. by rewrite N.eqb_refl.
Qed.

(** ** The context-free overload fails like the other *)

(** X3: when the context-free [emplace] through the slot of a live signal
    does not return normally, an exception reaches the caller: [bad_alloc]
    when the fresh allocation failed, otherwise what the constructor of
    the handler threw.  The signal is left without handler, the block of
    the previous record is gone and nothing else on the free store
    changed, and the invariant holds again. *)
Theorem emplace_void_failure (sg : positive) (T : realization) (H : Handler)
    (st st' : state) (p : N) (res : outcome unit) :
  allocator_ok -> wf st ->
  signals st !! sg = Some p -> 0 < sizeof T ->
  emplace_void (slot sg) T H st = (st', res) ->
  res <> Return tt ->
  exists e,
    res = Throw e
    /\ (e = bad_alloc /\ allocate (delete p (heap st)) (sizeof T) = None
        \/ exists x, handler_ctor H = Some x /\ e = user_exception x)
    /\ signals st' = <[sg := null]> (signals st)
    /\ has_handler (slot sg) st' = (st', Return false)
    /\ heap st' = delete p (heap st)
    /\ wf st'.
Proof.
  intros Hok Hwf Hsg Hpos Hrun Hfail.
  destruct (emplace_void_inv _ _ _ _ _ _ _ Hok Hwf Hsg Hrun)
    as (res' & Hres & ->).
  pose proof (emplace_result_wf _ _ _ _ _ _ _ Hok
                (construct_void_is_constructor T H) Hwf Hsg Hres) as Hwf'.
  assert (forall sz e, construct_void T sz H = Throw e ->
            exists x, handler_ctor H = Some x /\ e = user_exception x) as Hthrow.
  { intros sz e. unfold construct_void.
    destruct (handler_ctor H) as [x|]; [|discriminate].
    intros [= <-]. eauto. }
  inversion Hres as [obj ? ? ?|e ? Hle He|q obj ? ? ?
                    |Hlt Halloc|q e Hlt Halloc He|Hz Hsz]; subst;
    try done; try lia.
  - exists e. split; [done|]. split; [eauto|]. split; [done|].
    split; [apply has_handler_empty; cbn; apply lookup_insert_eq|]. done.
  - exists bad_alloc. split; [done|]. split; [eauto|]. split; [done|].
    split; [apply has_handler_empty; cbn; apply lookup_insert_eq|]. done.
  - exists e. split; [done|]. split; [eauto|]. split; [done|].
    split; [apply has_handler_empty; cbn; apply lookup_insert_eq|]. done.
Qed.

(** ** A caller that keeps the contract never leaves defined behaviour *)

Lemma live_true (sg : positive) (st : state) :
  live sg st = true -> exists p, signals st !! sg = Some p.
Proof. unfold live. destruct (signals st !! sg); [eauto|discriminate]. Qed.

Lemma thrown_completes (r : option UserExn) : completes (thrown r) = true.
Proof. by destruct r. Qed.

(** One operation used as the header asks returns or throws, and keeps
    the invariant. *)
Lemma well_used_step (o : op) (st : state) :
  allocator_ok -> wf st -> well_used o st = true ->
  completes (run_op o st).2 = true /\ wf (run_op o st).1.
Proof.
  intros Hok Hwf Huse. split; [|by apply run_op_wf].
  destruct o as [sg|sg|sg|s T h args|s T h|s]; cbn in Huse |- *.
  - unfold cancellation_signal_ctor, live in *.
    by destruct (signals st !! sg).
  - destruct (live_true _ _ Huse) as [p Hsg].
    destruct (N.eq_dec p null) as [->|Hp].
    + by rewrite (dtor_empty _ _ Hsg).
    + destruct (wf_installed _ Hwf _ _ Hsg Hp) as (r & Hr & _).
      by rewrite (dtor_installed _ _ _ _ _ Hsg Hp Hr).
  - destruct (live_true _ _ Huse) as [p Hsg].
    destruct (N.eq_dec p null) as [->|Hp].
    + by rewrite (emit_empty _ _ Hsg).
    + destruct (wf_installed _ Hwf _ _ Hsg Hp) as (r & Hr & _).
      destruct r as [T h c sz|T h sz].
      * rewrite (emit_context _ _ _ _ _ _ _ _ Hsg Hp Hr).
        apply thrown_completes.
      * rewrite (emit_void _ _ _ _ _ _ _ Hsg Hp Hr).
        apply thrown_completes.
  - destruct s as [[|sg]]; cbn in Huse; [discriminate|].
    apply andb_true_iff in Huse as [Hlive Hpos].
    apply N.ltb_lt in Hpos. destruct (live_true _ _ Hlive) as [p Hsg].
    change (Slot (Npos sg)) with (slot sg). unfold bind.
    destruct (emplace (slot sg) T h args st) as [st' res] eqn:Hrun.
    pose proof (emplace_inv _ _ _ _ _ _ _ _ Hok Hwf Hsg Hrun) as Hres.
    inversion Hres; subst; try done. lia.
  - destruct s as [[|sg]]; cbn in Huse; [discriminate|].
    apply andb_true_iff in Huse as [Hlive Hpos].
    apply N.ltb_lt in Hpos. destruct (live_true _ _ Hlive) as [p Hsg].
    change (Slot (Npos sg)) with (slot sg).
    destruct (emplace_void (slot sg) T h st) as [st' res] eqn:Hrun.
    destruct (emplace_void_inv _ _ _ _ _ _ _ Hok Hwf Hsg Hrun)
      as (res' & Hres & ->).
    inversion Hres; subst; try done. lia.
  - destruct s as [[|sg]]; cbn in Huse; [done|].
    destruct (live_true _ _ Huse) as [p Hsg].
    change (Slot (Npos sg)) with (slot sg).
    destruct (N.eq_dec p null) as [->|Hp].
    + by rewrite (clear_empty _ _ Hsg).
    + destruct (wf_installed _ Hwf _ _ Hsg Hp) as (r & Hr & _).
      by rewrite (clear_installed _ _ _ _ _ Hsg Hp Hr).
Qed.

(** X4: a program that uses the interface as the header asks (see
    [well_used]) never runs into a failed assertion or into undefined
    behaviour, whatever its operations throw: no pointer that is null or
    not live is dereferenced or freed, and no record is constructed into a
    block that is too small.  The invariant holds in the state it ends
    in. *)
Theorem well_used_never_aborts (ops : list op) (st : state) :
  allocator_ok -> wf st -> well_used_all ops st = true ->
  aborts ops st = false /\ wf (run ops st).
Proof.
  intros Hok. revert st.
  induction ops as [|o ops IH]; intros st Hwf Huse; [done|].
  cbn in Huse |- *. apply andb_true_iff in Huse as [Ho Hops].
  destruct (well_used_step o st Hok Hwf Ho) as [Hdone Hwf'].
  destruct (run_op o st) as [st' [[]|e| |]]; cbn in *; try discriminate; auto.
Qed.

(** ** The free store over a whole program *)

(** X6: no leak.  In every state a program reaches, the harness has
    counted as many allocations as frees and live blocks together, and
    every live block holds the record of exactly one signal; so once every
    signal is destroyed, no block is live and allocations equal frees. *)
Theorem no_leak (ops : list op) :
  allocator_ok ->
  count_allocs (alloc_log (run ops init))
  = (count_frees (alloc_log (run ops init)) + size (heap (run ops init)))%nat
  /\ (forall p b, heap (run ops init) !! p = Some b ->
        exists sg, signals (run ops init) !! sg = Some p
          /\ forall sg', signals (run ops init) !! sg' = Some p -> sg' = sg)
  /\ (signals (run ops init) = ∅ ->
        heap (run ops init) = ∅
        /\ count_allocs (alloc_log (run ops init))
           = count_frees (alloc_log (run ops init))).
Proof.
  intros Hok. pose proof (reachable_wf ops Hok) as Hwf.
  split; [apply Hwf|]. split.
  - intros p b Hb. destruct (wf_owned _ Hwf _ _ Hb) as [sg Hsg].
    exists sg. split; [done|]. intros sg' Hsg'.
    apply (wf_unique _ Hwf sg' sg p); auto.
    intros ->. rewrite (wf_null _ Hwf) in Hb. discriminate.
  - by apply no_signals_no_leak.
Qed.

(** ** Signals do not interfere *)

(** X13: an operation on another signal, or through a slot of another
    signal, leaves a signal and the block of its record exactly as they
    are, context included: the blocks of two signals are never the same,
    and a fresh block is never one that is in use. *)
Theorem other_signal_untouched (o : op) (sg : positive) (p : N) (st : state) :
  allocator_ok -> wf st ->
  signals st !! sg = Some p -> p <> null ->
  mentions o sg = false ->
  signals (run_op o st).1 !! sg = Some p
  /\ heap (run_op o st).1 !! p = heap st !! p.
Proof.
  intros Hok Hwf Hsg Hp Hm.
  assert (forall sg' p', sg' <> sg -> signals st !! sg' = Some p' -> p' <> p)
    as Hdistinct.
  { intros sg' p' Hne Hsg' ->. apply Hne. eapply wf_unique; eauto. }
  destruct o as [sg'|sg'|sg'|s T h args|s T h|s]; cbn in Hm |- *.
  - unfold cancellation_signal_ctor.
    destruct (signals st !! sg') eqn:Hsg'; [done|]. cbn.
    rewrite lookup_insert_ne by congruence. done.
  - apply bool_decide_eq_false in Hm.
    destruct (signals st !! sg') as [p'|] eqn:Hsg'.
    + destruct (N.eq_dec p' null) as [->|Hp'].
      * rewrite (dtor_empty _ _ Hsg'). cbn. by rewrite lookup_delete_ne.
      * destruct (wf_installed _ Hwf _ _ Hsg' Hp') as (r2 & Hr2 & _).
        rewrite (dtor_installed _ _ _ _ _ Hsg' Hp' Hr2). cbn.
        rewrite !lookup_delete_ne; eauto.
    + by rewrite dtor_dangling.
  - apply bool_decide_eq_false in Hm.
    destruct (signals st !! sg') as [p'|] eqn:Hsg'.
    + destruct (N.eq_dec p' null) as [->|Hp'].
      * by rewrite emit_empty.
      * destruct (wf_installed _ Hwf _ _ Hsg' Hp') as (r2 & Hr2 & _).
        destruct r2 as [T h c sz|T h sz].
        -- rewrite (emit_context _ _ _ _ _ _ _ _ Hsg' Hp' Hr2). cbn.
           rewrite lookup_insert_ne; eauto.
        -- by rewrite (emit_void _ _ _ _ _ _ _ Hsg' Hp' Hr2).
    + by rewrite emit_dangling.
  - pose proof (emplace_with_frame s sg T _ st p Hok
                  (construct_is_constructor T h args) Hwf Hm Hsg Hp) as H.
    unfold bind. rewrite emplace_eq.
    by destruct (emplace_with _ _ _ st) as [st' [a|e| |]].
  - pose proof (emplace_with_frame s sg T _ st p Hok
                  (construct_void_is_constructor T h) Hwf Hm Hsg Hp) as H.
    rewrite emplace_void_eq. unfold void.
    by destruct (emplace_with _ _ _ st) as [st' [a|e| |]].
  - destruct (slot_cases s) as [->|[sg' ->]]; [done|].
    assert (sg' <> sg) as Hne.
    { intros ->. cbn in Hm. by rewrite Pos.eqb_refl in Hm. }
    destruct (signals st !! sg') as [p'|] eqn:Hsg'.
    + destruct (N.eq_dec p' null) as [->|Hp'].
      * by rewrite clear_empty.
      * destruct (wf_installed _ Hwf _ _ Hsg' Hp') as (r2 & Hr2 & _).
        rewrite (clear_installed _ _ _ _ _ Hsg' Hp' Hr2). cbn.
        rewrite lookup_insert_ne, lookup_delete_ne; eauto.
    + by rewrite clear_dangling.
Qed.

(** ** Only emit calls a handler *)

Lemma preserves_calls {A} (c : list call_event) (m : M A) :
  (forall st, calls (m st).1 = calls st) ->
  preserves (fun st => calls st = c) m.
Proof. intros Hm st <-. apply Hm. Qed.

Lemma calls_operator_new (c : list call_event) (sz : N) :
  preserves (fun st => calls st = c) (operator_new sz).
Proof.
  apply preserves_calls. intros st. unfold operator_new.
  by destruct (allocate (heap st) sz).
Qed.

Lemma calls_operator_delete (c : list call_event) (p : N) :
  preserves (fun st => calls st = c) (operator_delete p).
Proof.
  apply preserves_calls. intros st. unfold operator_delete.
  destruct (p =? null); [done|]. by destruct (heap st !! p).
Qed.

Lemma calls_placement_new (c : list call_event) (p : N) (T : realization)
    (r : outcome cancellation_handler_base) :
  preserves (fun st => calls st = c) (placement_new p T r).
Proof.
  apply preserves_calls. intros st. unfold placement_new.
  destruct (heap st !! p) as [b|]; [|done].
  destruct (sizeof T <=? capacity b); [|done]. by destruct r.
Qed.

Lemma calls_destroy (c : list call_event) (p : N) :
  preserves (fun st => calls st = c) (destroy p).
Proof.
  apply preserves_calls. intros st. unfold destroy.
  by destruct (heap st !! p) as [[cap [r|]]|].
Qed.

Lemma calls_deref (c : list call_event) (pp : N) :
  preserves (fun st => calls st = c) (deref pp).
Proof.
  apply preserves_calls. intros st. destruct pp as [|sg]; [done|].
  cbn. unfold load_signal. by destruct (signals st !! sg).
Qed.

Lemma calls_assign (c : list call_event) (pp h : N) :
  preserves (fun st => calls st = c) (assign pp h).
Proof.
  apply preserves_calls. intros st. destruct pp as [|sg]; [done|].
  cbn. unfold store_signal. by destruct (signals st !! sg).
Qed.

Lemma calls_load_signal (c : list call_event) (sg : positive) :
  preserves (fun st => calls st = c) (load_signal sg).
Proof.
  apply preserves_calls. intros st. unfold load_signal.
  by destruct (signals st !! sg).
Qed.

Create HintDb quiet.

#[local] Hint Resolve preserves_ret preserves_throw preserves_assert
  calls_operator_new calls_operator_delete calls_placement_new calls_destroy
  calls_deref calls_assign calls_load_signal : quiet.

Ltac quiet_step :=
  first
    [ apply preserves_bind; [|intros ?]
    | apply preserves_try_catch; [|intros ?]
    | apply preserves_void
    | match goal with
      | |- preserves _ (if ?b then _ else _) => destruct b
      end
    | solve [auto with quiet] ].

Lemma calls_emplace_with (c : list call_event) (s : cancellation_slot)
    (T : realization) (ctor : N -> outcome cancellation_handler_base) :
  preserves (fun st => calls st = c) (emplace_with s T ctor).
Proof.
  unfold emplace_with, surrender_phase, create_with. repeat quiet_step.
Qed.

(** X14: installing, replacing, clearing and destroying never call a
    handler.  In any state, every operation but [emit()] leaves the trace
    of handler calls as it is, whatever its outcome: a handler that is
    replaced, cleared or destroyed with its signal is destroyed without
    being invoked. *)
Theorem only_emit_calls_handlers (o : op) (st : state) :
  (forall sg, o <> op_emit sg) ->
  calls (run_op o st).1 = calls st.
Proof.
  intros Hnot.
  assert (preserves (fun st' => calls st' = calls st) (run_op o)) as Hkeep.
  { destruct o as [sg|sg|sg|s T h args|s T h|s]; cbn.
    - apply preserves_calls. intros st0. unfold cancellation_signal_ctor.
      by destruct (signals st0 !! sg).
    - unfold cancellation_signal_dtor. repeat quiet_step.
      by apply preserves_calls.
    - by destruct (Hnot sg).
    - intros st0 Hst0. unfold bind. rewrite emplace_eq.
      pose proof (calls_emplace_with _ s T
                    (fun sz => construct T sz h args) st0 Hst0) as H.
      by destruct (emplace_with _ _ _ st0) as [st' [a|e| |]].
    - intros st0 Hst0. rewrite emplace_void_eq.
      by apply (preserves_void _ _ (calls_emplace_with _ s T _)).
    - unfold clear. repeat quiet_step. }
  by apply Hkeep.
Qed.

End Properties.

(** * The concrete caller

    The allocator of [Demo] keeps the contract, and each theorem with
    hypotheses is applied to a run of the concrete caller. *)

Import Demo.

Lemma least_fresh_ok : allocator_ok.
Proof.
  intros h sz p. cbn. destruct (sz <=? 4096); [|discriminate].
  intros [= <-]. unfold least_fresh.
  pose proof (is_fresh ({[null]} ∪ dom h)) as Hfresh.
  split.
  - intros Heq. apply Hfresh. rewrite Heq. set_solver.
  - apply not_elem_of_dom. set_solver.
Qed.

Lemma st0_wf : wf st0.
Proof. apply reachable_wf, least_fresh_ok. Qed.

Lemma st64_wf : wf st64.
Proof. apply reachable_wf, least_fresh_ok. Qed.

(** A handler of 64 bytes is installed in an empty signal and emitted. *)
Lemma emplace_then_emit_witness :
  emplace (slot 1) 64 7%nat 5%nat st0 = (st64, Return 1)
  /\ exists c cap sz,
       context_ctor 5%nat = inr c
       /\ signals st64 !! 1%positive = Some 1
       /\ heap st64 !! 1 = Some (Block cap (Some (cancellation_handler 64 7%nat c sz)))
       /\ emit 1 st64 =
            (State (<[1 := Block cap (Some (cancellation_handler 64 7%nat
                                              (handler_call 7%nat c).1 sz))]>
                      (heap st64))
                   (signals st64) (alloc_log st64) (calls st64 ++ [(7%nat, Some 1)])
                   (destroyed st64),
             thrown (handler_call 7%nat c).2).
Proof.
  split; [vm_compute; reflexivity|].
  apply (@emplace_then_emit types platform 1 64 7%nat 5%nat st0 st64 1).
  - exact least_fresh_ok.
  - exact st0_wf.
  - vm_compute; reflexivity.
Defined.

(** [emit()] on the signal without handler. *)
Lemma emit_no_handler_noop_witness :
  signals st0 !! 1%positive = Some null
  /\ emit 1 st0 = (st0, Return tt)
  /\ calls (emit 1 st0).1 = calls st0
  /\ alloc_log (emit 1 st0).1 = alloc_log st0
  /\ signals (emit 1 st0).1 !! 1%positive = Some null.
Proof.
  split; [reflexivity|].
  apply (@emit_no_handler_noop types 1 st0). reflexivity.
Defined.

(** The 64-byte block takes a 32-byte record without a call of the
    allocator; a 100-byte record whose handler cannot be constructed has
    the old block freed, a block of 100 bytes obtained and freed again. *)
Lemma emplace_allocator_calls_witness :
  emplace (slot 1) 32 3%nat 5%nat st64 = (st64_32, Return 1)
  /\ emplace (slot 1) 100 13%nat 5%nat st64
     = (st64_100_failed, Throw (user_exception 1%nat))
  /\ alloc_log st64_32 = alloc_log st64
  /\ alloc_log st64_100_failed
     = alloc_log st64 ++ [ev_delete 1; ev_new 100 (Some 1); ev_delete 1]
  /\ (exists cap r,
        heap st64 !! 1 = Some (Block cap (Some r))
        /\ (sizeof (32 : N) <= cap ->
              (exists obj,
                 @Return types N 1 = Return 1
                 /\ construct 32 cap 3%nat 5%nat = Return obj
                 /\ alloc_log st64_32 = alloc_log st64
                 /\ heap st64_32 = <[1 := Block cap (Some obj)]> (heap st64))
              \/ (exists e,
                    @Return types N 1 = Throw e
                    /\ construct 32 cap 3%nat 5%nat = Throw e
                    /\ alloc_log st64_32 = alloc_log st64 ++ [ev_delete 1]
                    /\ heap st64_32 = delete 1 (heap st64)))
        /\ (cap < sizeof (32 : N) ->
              (exists q obj,
                 @Return types N 1 = Return q
                 /\ allocate (delete 1 (heap st64)) (sizeof (32 : N)) = Some q
                 /\ construct 32 (sizeof (32 : N)) 3%nat 5%nat = Return obj
                 /\ alloc_log st64_32 =
                      alloc_log st64 ++ [ev_delete 1; ev_new (sizeof (32 : N)) (Some q)]
                 /\ heap st64_32
                    = <[q := Block (sizeof (32 : N)) (Some obj)]> (delete 1 (heap st64)))
              \/ (exists q e,
                    @Return types N 1 = Throw e
                    /\ allocate (delete 1 (heap st64)) (sizeof (32 : N)) = Some q
                    /\ construct 32 (sizeof (32 : N)) 3%nat 5%nat = Throw e
                    /\ alloc_log st64_32 =
                         alloc_log st64
                           ++ [ev_delete 1; ev_new (sizeof (32 : N)) (Some q);
                               ev_delete q]
                    /\ heap st64_32 = delete 1 (heap st64))
              \/ (@Return types N 1 = Throw bad_alloc
                  /\ allocate (delete 1 (heap st64)) (sizeof (32 : N)) = None
                  /\ alloc_log st64_32 =
                       alloc_log st64 ++ [ev_delete 1; ev_new (sizeof (32 : N)) None]
                  /\ heap st64_32 = delete 1 (heap st64)))).
Proof.
  split; [vm_compute; reflexivity|]. split; [vm_compute; reflexivity|].
  split; [vm_compute; reflexivity|]. split; [vm_compute; reflexivity|].
  apply (@emplace_allocator_calls types platform 1 32 3%nat 5%nat st64 st64_32 1
           (@Return types N 1)).
  - exact least_fresh_ok.
  - exact st64_wf.
  - reflexivity.
  - discriminate.
  - vm_compute; reflexivity.
Defined.

(** C2, as stated, fails: the installed block has capacity 64 and the new
    record needs 32 bytes, yet the [emplace] calls the allocator, because
    the constructor of the handler throws and [create] then frees the
    block; and when 5000 bytes are needed and the allocator is exhausted,
    the old block is freed but no block is allocated. *)
Lemma emplace_reuse_failure_calls_allocator :
  signals st64 !! 1%positive = Some 1
  /\ heap st64 !! 1 = Some (Block 64 (Some (cancellation_handler 64 7%nat 5%nat 64)))
  /\ sizeof (32 : N) <= 64
  /\ emplace (slot 1) 32 13%nat 5%nat st64 =
       (State ∅ {[1%positive := null]} (alloc_log st64 ++ [ev_delete 1]) []
              [(1, cancellation_handler 64 7%nat 5%nat 64)],
        Throw (user_exception 1%nat))
  /\ alloc_log (emplace (slot 1) 32 13%nat 5%nat st64).1 <> alloc_log st64
  /\ emplace (slot 1) 5000 3%nat 5%nat st64 =
       (State ∅ {[1%positive := null]}
              (alloc_log st64 ++ [ev_delete 1; ev_new 5000 None]) []
              [(1, cancellation_handler 64 7%nat 5%nat 64)],
        Throw bad_alloc).
Proof.
  split; [reflexivity|]. split; [reflexivity|].
  split; [vm_compute; discriminate|].
  split; [vm_compute; reflexivity|].
  split; [vm_compute; discriminate|].
  vm_compute; reflexivity.
Qed.


(** C5, as stated, fails for [clear]: on a default-constructed slot, in a
    build with assertions, [clear] returns normally and leaves the state as
    it is; no assertion fires. *)
Lemma clear_disconnected_is_silent :
  NDEBUG = false
  /\ is_connected cancellation_slot_default = false
  /\ clear cancellation_slot_default st64 = (st64, Return tt)
  /\ (clear cancellation_slot_default st64).2 <> AssertFail.
Proof.
  split; [reflexivity|]. split; [reflexivity|]. split; [reflexivity|].
  discriminate.
Qed.

(** [clear()] with and without an installed handler. *)
Lemma clear_postcondition_witness :
  clear (slot 1) st64 = (st64_cleared, Return tt)
  /\ is_connected (slot 1) = true
  /\ has_handler (slot 1) st64_cleared = (st64_cleared, Return false)
  /\ emit 1 st64_cleared = (st64_cleared, Return tt)
  /\ clear (slot 1) st64_cleared = (st64_cleared, Return tt)
  /\ clear (slot 1) st0 = (st0, Return tt)
  /\ exists st', clear (slot 1) st64 = (st', Return tt).
Proof.
  assert (clear (slot 1) st64 = (st64_cleared, Return tt)) as Hclear
    by (vm_compute; reflexivity).
  destruct (@clear_postcondition types 1 st64) as (Hpost & _ & Hret).
  destruct (Hpost st64_cleared Hclear) as (H1 & H2 & H3 & H4).
  destruct (@clear_postcondition types 1 st0) as (_ & Hnoop & _).
  split; [exact Hclear|]. split; [exact H1|]. split; [exact H2|].
  split; [exact H3|]. split; [exact H4|].
  split; [apply Hnoop; reflexivity|].
  apply Hret; [exact st64_wf|]. exists 1. reflexivity.
Defined.

Lemma st64_log_agrees : log_agrees st64.
Proof. apply reachable_log_agrees, least_fresh_ok. Qed.

(** The signal with the 64-byte handler is destroyed. *)
Lemma signal_dtor_frees_once_witness :
  exists st',
    cancellation_signal_dtor 1 st64 = (st', Return tt)
    /\ destroyed st64 = []
    /\ destroyed st' = [(1, cancellation_handler 64 7%nat 5%nat 64)]
    /\ alloc_log st' = alloc_log st64 ++ [ev_delete 1]
    /\ last_allocation 1 (alloc_log st64) = Some (64, 0%nat)
    /\ last_allocation 1 (alloc_log st') = Some (64, 1%nat)
    /\ heap st' = ∅
    /\ count_allocs (alloc_log st') = count_frees (alloc_log st').
Proof.
  destruct (@signal_dtor_frees_once types 1 1 st64)
    as (st' & r & Hrun & Hr & Hgone & Hlog & _ & Hbefore & _ & Hafter & _ & _ & _
        & Hall).
  - exact st64_wf.
  - exact st64_log_agrees.
  - reflexivity.
  - discriminate.
  - assert (forall (sg' : positive) (q : N),
              sg' <> 1%positive -> signals st64 !! sg' = Some q -> q = null)
      as Hothers.
    { intros sg' q Hne.
      change (signals st64) with (<[1%positive := 1]> (∅ : gmap positive N)).
      rewrite lookup_insert_ne by done. by rewrite lookup_empty. }
    destruct (Hall Hothers) as [Hempty Hcount].
    assert (r = cancellation_handler 64 7%nat 5%nat 64) as ->.
    { vm_compute in Hr. by injection Hr as _ <-. }
    exists st'. split; [done|]. split; [reflexivity|]. split; [exact Hgone|].
    auto 10.
Defined.

(** The 32-byte record in the 64-byte block stores 64, and [destroy()]
    hands back 64. *)
Lemma record_size_invariant_witness :
  run program_64_32 init = st64_32
  /\ exists r,
       heap st64_32 !! 1 = Some (Block (size_ r) (Some r))
       /\ last_allocation 1 (alloc_log st64_32) = Some (size_ r, 0%nat)
       /\ sizeof (dynamic_type r) <= size_ r
       /\ destroy 1 st64_32 =
            (log_destroy (1, r)
               (set_heap (insert 1 (Block (size_ r) None)) st64_32),
             Return (1, size_ r))
       /\ forall o, replaces_record o 1 = false ->
            exists r',
              signals (run_op o st64_32).1 !! 1%positive = Some 1
              /\ heap (run_op o st64_32).1 !! 1 = Some (Block (size_ r) (Some r'))
              /\ size_ r' = size_ r.
Proof.
  split; [vm_compute; reflexivity|].
  apply (@record_size_invariant types platform program_64_32 1 1).
  - exact least_fresh_ok.
  - reflexivity.
  - discriminate.
Defined.

Example destroy_returns_capacity :
  (destroy 1 st64_32).2 = Return (1, 64)
  /\ (dynamic_type <$> (heap st64_32 !! 1 ≫= object)) = Some (32 : N).
Proof. split; reflexivity. Qed.

(** ** The further properties at work *)

Lemma st_two_wf : wf st_two.
Proof. apply reachable_wf, least_fresh_ok. Qed.

(** The context-free handler 9 is installed in the empty signal and
    emitted. *)
Lemma emplace_void_then_emit_witness :
  emplace_void (slot 1) 16 9%nat st0 = (st16_void, Return tt)
  /\ emit 1 st16_void =
       (State (heap st16_void) (signals st16_void) (alloc_log st16_void)
              (calls st16_void ++ [(9%nat, None)]) (destroyed st16_void),
        thrown (handler_call_void 9%nat)).
Proof.
  assert (emplace_void (slot 1) 16 9%nat st0 = (st16_void, Return tt)) as Hrun
    by (vm_compute; reflexivity).
  split; [exact Hrun|].
  apply (emplace_void_then_emit (UT:=types) 1 16 9%nat st0 st16_void).
  - exact least_fresh_ok.
  - exact st0_wf.
  - exists 0. reflexivity.
  - exact Hrun.
Defined.

(** The context-free handler of 16 bytes takes the place of the 64-byte
    record without a call of the allocator. *)
Lemma emplace_void_allocator_calls_witness :
  exists cap r obj q,
    heap st64 !! 1 = Some (Block cap (Some r))
    /\ signals st64_void16 !! 1%positive = Some q
    /\ (sizeof (16 : N) <= cap ->
          q = 1
          /\ alloc_log st64_void16 = alloc_log st64
          /\ heap st64_void16 = <[1 := Block cap (Some obj)]> (heap st64))
    /\ (cap < sizeof (16 : N) ->
          alloc_log st64_void16
          = alloc_log st64 ++ [ev_delete 1; ev_new (sizeof (16 : N)) (Some q)]
          /\ heap st64_void16
             = <[q := Block (sizeof (16 : N)) (Some obj)]> (delete 1 (heap st64))).
Proof.
  apply (emplace_void_allocator_calls (UT:=types) 1 16 9%nat st64 st64_void16 1).
  - exact least_fresh_ok.
  - exact st64_wf.
  - reflexivity.
  - discriminate.
  - vm_compute; reflexivity.
Defined.

(** The constructor of handler 13 throws in the context-free overload. *)
Lemma emplace_void_failure_witness :
  exists e,
    @Throw types unit (user_exception (H:=types) 1%nat) = Throw e
    /\ (e = bad_alloc /\ allocate (delete 1 (heap st64)) (sizeof (16 : N)) = None
        \/ exists x, handler_ctor 13%nat = Some x /\ e = user_exception x)
    /\ signals st64_void_failed = <[1%positive := null]> (signals st64)
    /\ has_handler (slot 1) st64_void_failed = (st64_void_failed, Return false)
    /\ heap st64_void_failed = delete 1 (heap st64)
    /\ wf st64_void_failed.
Proof.
  apply (emplace_void_failure (UT:=types) 1 16 13%nat st64 st64_void_failed 1).
  - exact least_fresh_ok.
  - exact st64_wf.
  - reflexivity.
  - reflexivity.
  - vm_compute; reflexivity.
  - discriminate.
Defined.

(** The long program, with its two failing replacements, keeps the
    contract and does not abort. *)
Lemma well_used_never_aborts_witness :
  well_used_all program_full init = true
  /\ aborts program_full init = false
  /\ wf (run program_full init).
Proof.
  split; [vm_compute; reflexivity|].
  apply (well_used_never_aborts (UT:=types) program_full init).
  - exact least_fresh_ok.
  - exact wf_init.
  - vm_compute; reflexivity.
Defined.

(** The long program destroys both signals: nothing is left. *)
Lemma no_leak_witness :
  signals (run program_full init) = ∅
  /\ heap (run program_full init) = ∅
  /\ count_allocs (alloc_log (run program_full init))
     = count_frees (alloc_log (run program_full init)).
Proof.
  split; [reflexivity|].
  destruct (no_leak (UT:=types) program_full least_fresh_ok) as (_ & _ & H).
  apply H. reflexivity.
Defined.

(** 32, then 64, then 16 bytes in the block of 64: no allocator call. *)
Lemma repeated_emplace_no_allocation_witness :
  exists st',
    emplace_each (slot 1) requests_fit st64 = Some st'
    /\ alloc_log st' = alloc_log st64
    /\ signals st' !! 1%positive = Some 1
    /\ exists r', heap st' !! 1 = Some (Block 64 (Some r')).
Proof.
  eexists. split; [vm_compute; reflexivity|].
  apply (repeated_emplace_no_allocation (UT:=types) 1 1 64 requests_fit
           least_fresh_ok) with (st := st64)
           (r := cancellation_handler (H:=types) 64 7%nat 5%nat 64).
  - repeat constructor; vm_compute; discriminate.
  - exact st64_wf.
  - reflexivity.
  - discriminate.
  - reflexivity.
  - vm_compute; reflexivity.
Defined.

(** The handler 7 adds 7 to its context, 5, twice. *)
Lemma emit_twice_witness :
  (emit 1 (emit 1 st64).1).2 = Return tt
  /\ calls (emit 1 (emit 1 st64).1).1 = [(7%nat, Some 1); (7%nat, Some 1)]
  /\ heap (emit 1 (emit 1 st64).1).1 !! 1
     = Some (Block 64 (Some (cancellation_handler 64 7%nat 19%nat 64)))
  /\ has_handler (slot 1) (emit 1 (emit 1 st64).1).1
     = ((emit 1 (emit 1 st64).1).1, Return true).
Proof.
  destruct (emit_twice (UT:=types) 1 1 64 64 64 7%nat 5%nat st64)
    as [Hrun Hhas]; [reflexivity|discriminate|reflexivity|].
  split; [by rewrite Hrun|]. split; [by rewrite Hrun|].
  split; [by rewrite Hrun|exact Hhas].
Defined.

(** A second signal is constructed beside the first and destroyed. *)
Lemma signal_ctor_dtor_round_trip_witness :
  exists st1,
    cancellation_signal_ctor 2 st64 = (st1, Return tt)
    /\ has_handler (slot 2) st1 = (st1, Return false)
    /\ emit 2 st1 = (st1, Return tt)
    /\ cancellation_signal_dtor 2 st1 = (st64, Return tt).
Proof.
  apply (signal_ctor_dtor_round_trip (UT:=types) 2 st64). reflexivity.
Defined.

(** The first handler of the signal. *)
Lemma emplace_on_empty_signal_witness :
  exists c,
    context_ctor 5%nat = inr c
    /\ 1 <> null /\ heap st0 !! 1 = None
    /\ alloc_log st64 = alloc_log st0 ++ [ev_delete null; ev_new (sizeof (64 : N)) (Some 1)]
    /\ heap st64 =
         <[1 := Block (sizeof (64 : N))
                  (Some (cancellation_handler 64 7%nat c (sizeof (64 : N))))]>
           (heap st0)
    /\ signals st64 = <[1%positive := 1]> (signals st0).
Proof.
  apply (emplace_on_empty_signal (UT:=types) 1 64 7%nat 5%nat st0 st64 1).
  - exact least_fresh_ok.
  - exact st0_wf.
  - reflexivity.
  - vm_compute; reflexivity.
Defined.

Lemma has_handler_after_emplace_witness :
  is_connected (slot 1) = true
  /\ has_handler (slot 1) st64 = (st64, Return true).
Proof.
  apply (has_handler_after_emplace (UT:=types) 1 64 7%nat 5%nat st0 st64).
  - exact least_fresh_ok.
  - exact st0_wf.
  - exists 0. reflexivity.
  - left. exists 1. vm_compute; reflexivity.
Defined.

(** The handler of signal 2 is replaced by one that needs a fresh block:
    signal 1 and its block are as before. *)
Lemma other_signal_untouched_witness :
  signals (run_op op_grow_two st_two).1 !! 1%positive
  = Some 1
  /\ heap (run_op op_grow_two st_two).1 !! 1
     = heap st_two !! 1.
Proof.
  apply (other_signal_untouched (UT:=types)
           op_grow_two 1 1 st_two).
  - exact least_fresh_ok.
  - exact st_two_wf.
  - reflexivity.
  - discriminate.
  - reflexivity.
Defined.

(** Clearing the slot does not call the handler. *)
Lemma only_emit_calls_handlers_witness :
  calls (run_op (op_clear (slot 1)) st64).1 = calls st64.
Proof.
  apply (only_emit_calls_handlers (UT:=types) (op_clear (slot 1)) st64).
  intros sg. discriminate.
Defined.

(** 32 bytes into the block of 64: the capacity stays 64. *)
Lemma emplace_capacity_max_witness :
  exists obj,
    signals st64_32 !! 1%positive = Some 1
    /\ heap st64_32 !! 1 =
         Some (Block (N.max (installed_size st64 1) (sizeof (32 : N))) (Some obj))
    /\ size_ obj = N.max (installed_size st64 1) (sizeof (32 : N))
    /\ dynamic_type obj = (32 : N).
Proof.
  apply (emplace_capacity_max (UT:=types) 1 32 3%nat 5%nat st64 st64_32 1 1).
  - exact least_fresh_ok.
  - exact st64_wf.
  - reflexivity.
  - vm_compute; reflexivity.
Defined.

(** After [clear()], 32 bytes need a fresh block although 64 were there. *)
Lemma clear_then_emplace_allocates_witness :
  alloc_log st_cleared_32
  = alloc_log st64_cleared ++ [ev_delete null; ev_new (sizeof (32 : N)) (Some 1)]
  /\ heap st64_cleared !! 1 = None
  /\ exists obj,
       heap st_cleared_32
       = <[1 := Block (sizeof (32 : N)) (Some obj)]> (heap st64_cleared).
Proof.
  apply (clear_then_emplace_allocates (UT:=types) 1 32 3%nat 5%nat st64
           st64_cleared st_cleared_32 1).
  - exact least_fresh_ok.
  - exact st64_wf.
  - vm_compute; reflexivity.
  - vm_compute; reflexivity.
Defined.

Lemma clear_frees_block_witness :
  clear (slot 1) st64 =
    (State (delete 1 (heap st64)) (<[1%positive := null]> (signals st64))
           (alloc_log st64 ++ [ev_delete 1]) (calls st64) (surrendered st64 1),
     Return tt)
  /\ is_Some (heap st64 !! 1)
  /\ last_allocation 1 (alloc_log st64) = Some (installed_size st64 1, 0%nat)
  /\ last_allocation 1 (alloc_log st64 ++ [ev_delete 1])
     = Some (installed_size st64 1, 1%nat).
Proof.
  apply (clear_frees_block (UT:=types) 1 1 st64).
  - exact st64_wf.
  - exact st64_log_agrees.
  - reflexivity.
  - discriminate.
Defined.
